(** * An intrusive doubly-linked list: link-management protocol

    Shallow embedding of [intrusive::details::list_element_base] and
    [intrusive::list] (intrusive-list.h and its implementation file).

    Objects live in a heap indexed by their address; a node is the pair of
    its two raw pointers.  Every member function becomes a computation in a
    state-and-failure monad over that heap: dereferencing an address that
    holds no live node has no defined behaviour in the source and is the
    failure of the monad. *)

From stdpp Require Import gmap list fin_maps.

#[local] Set Warnings "-clear-no-such-hyp".

(** ** Data model *)

Abbreviation addr := positive.

(** [struct list_element_base { list_element_base* prev; list_element_base* next; }] *)
Record list_element_base := Elem { prev : addr; next : addr }.

#[global] Instance list_element_base_eq_dec : EqDecision list_element_base.
Proof. solve_decision. Defined.

Abbreviation heap := (gmap addr list_element_base).

(** ** The monad of heap computations *)

Definition M (A : Type) : Type := heap → option (A * heap).

Global Instance M_ret : MRet M := λ A x h, Some (x, h).
Global Instance M_bind : MBind M := λ A B f m h,
  match m h with
  | Some (x, h') => f x h'
  | None => None
  end.

Definition get_prev (a : addr) : M addr := λ h,
  match h !! a with Some e => Some (prev e, h) | None => None end.
Definition get_next (a : addr) : M addr := λ h,
  match h !! a with Some e => Some (next e, h) | None => None end.
Definition set_prev (a v : addr) : M unit := λ h,
  match h !! a with Some e => Some ((), <[a := Elem v (next e)]> h) | None => None end.
Definition set_next (a v : addr) : M unit := λ h,
  match h !! a with Some e => Some ((), <[a := Elem (prev e) v]> h) | None => None end.

(** ** [list_element_base] *)

(** [list_element_base() noexcept : prev(this), next(this) {}], run on the
    storage at [this]. *)
Definition construct (this : addr) : M unit := λ h,
  Some ((), <[this := Elem this this]> h).

(** [bool is_linked() const { return prev != this; }] *)
Definition is_linked (this : addr) : M bool :=
  p ← get_prev this; mret (bool_decide (p ≠ this)).

(** [static void link(a, b) { a->next = b; b->prev = a; }] *)
Definition link (a b : addr) : M unit :=
  set_next a b;; set_prev b a.

(** [void unlink() { link(prev, next); prev = next = this; }] *)
Definition unlink (this : addr) : M unit :=
  p ← get_prev this;
  n ← get_next this;
  link p n;;
  set_next this this;;
  set_prev this this.

(** [operator=(const list_element_base& other)] *)
Definition copy_assign (this other : addr) : M unit :=
  if decide (this = other) then mret ()
  else unlink this.

(** [list_element_base(const list_element_base&) : list_element_base() {}] *)
Definition copy_construct (this other : addr) : M unit :=
  construct this.

(** [operator=(list_element_base&& other)] *)
Definition move_assign (this other : addr) : M unit :=
  if decide (this = other) then mret ()
  else
    unlink this;;
    b ← is_linked other;
    if b : bool then
      op ← get_prev other; set_prev other other;; set_prev this op;;
      on ← get_next other; set_next other other;; set_next this on;;
      p ← get_prev this; set_next p this;;
      n ← get_next this; set_prev n this
    else mret ().

(** [list_element_base(list_element_base&& other) : list_element_base()
    { *this = std::move(other); }] *)
Definition move_construct (this other : addr) : M unit :=
  construct this;; move_assign this other.

(** [~list_element_base() = default;]: both members are raw pointers, so no
    field of any node is written; the storage of [this] ends. *)
Definition destroy (this : addr) : M unit := λ h,
  Some ((), delete this h).

(** ** [list]: a list is the address [d] of its [dummy] member *)

Definition list_construct (d : addr) : M unit := construct d.
Definition list_move_construct (d other : addr) : M unit := move_construct d other.
Definition list_move_assign (d other : addr) : M unit := move_assign d other.
(** [~list() = default;] destroys the only member, [dummy]. *)
Definition list_destroy (d : addr) : M unit := destroy d.

Definition begin_ (d : addr) : M addr := get_next d.
Definition end_ (d : addr) : M addr := mret d.

(** [bool empty() const { return !dummy.is_linked(); }] *)
Definition empty (d : addr) : M bool :=
  b ← is_linked d; mret (negb b).

(** [std::distance(first, last)] on bidirectional iterators: advance
    [first] until it meets [last], counting the steps.  The loop has no
    bound in the source; [fuel] bounds the number of iterations. *)
Fixpoint distance (fuel : nat) (first last : addr) : M nat :=
  if decide (first = last) then mret 0
  else match fuel with
       | 0 => λ _, None
       | S fuel' => n ← get_next first; k ← distance fuel' n last; mret (S k)
       end.

(** [size_t size() const { return std::distance(begin(), end()); }] *)
Definition size (fuel : nat) (d : addr) : M nat :=
  b ← begin_ d; e ← end_ d; distance fuel b e.

(** [for (auto it = first; it != last; ++it) visit(it)]: the nodes seen by
    iteration over a range, in order. *)
Fixpoint traverse (fuel : nat) (first last : addr) : M (list addr) :=
  if decide (first = last) then mret []
  else match fuel with
       | 0 => λ _, None
       | S fuel' => n ← get_next first; l ← traverse fuel' n last; mret (first :: l)
       end.

Definition to_list (fuel : nat) (d : addr) : M (list addr) :=
  b ← begin_ d; e ← end_ d; traverse fuel b e.

(** [front()] is [*begin()], [back()] is [*std::prev(end())]. *)
Definition front (d : addr) : M addr := begin_ d.
Definition back (d : addr) : M addr := e ← end_ d; get_prev e.

(** [iterator insert(const_iterator pos, reference value)] *)
Definition insert_ (pos value : addr) : M addr :=
  if decide (pos = value) then mret pos
  else
    unlink value;;
    p ← get_prev pos;
    link p value;;
    link value pos;;
    mret value.

(** [iterator erase(const_iterator pos)] *)
Definition erase (pos : addr) : M addr :=
  nxt ← get_next pos;
  unlink pos;;
  mret nxt.

(** [void splice(pos, list& other, first, last_exclusive)];
    [other] is unused by the body. *)
Definition splice (pos first last_exclusive : addr) : M unit :=
  if decide (first = last_exclusive) then mret ()
  else
    last ← get_prev last_exclusive;
    before_pos ← get_prev pos;
    before_first ← get_prev first;
    after_last ← get_next last;
    link before_pos first;;
    link last pos;;
    link before_first after_last.

Definition push_front (d value : addr) : M unit :=
  b ← begin_ d; insert_ b value;; mret ().
Definition push_back (d value : addr) : M unit :=
  e ← end_ d; insert_ e value;; mret ().
Definition pop_front (d : addr) : M unit :=
  b ← begin_ d; erase b;; mret ().
Definition pop_back (d : addr) : M unit :=
  e ← end_ d; p ← get_prev e; erase p;; mret ().
Definition clear (d : addr) : M unit := unlink d.

(** ** Field views of a heap and total-correctness triples *)

Definition nx (h : heap) (a : addr) : option addr := next <$> h !! a.
Definition pv (h : heap) (a : addr) : option addr := prev <$> h !! a.

(** [wp m h Q]: run from [h], the computation [m] does not fail and its
    result and final heap satisfy [Q]. *)
Definition wp {A} (m : M A) (h : heap) (Q : A → heap → Prop) : Prop :=
  ∃ r h', m h = Some (r, h') ∧ Q r h'.

(** [linked h a b h']: [h'] is [h] after [a->next = b; b->prev = a]. *)
Definition linked (h : heap) (a b : addr) (h' : heap) : Prop :=
  (∀ c, nx h' c = if decide (c = a) then Some b else nx h c) ∧
  (∀ c, pv h' c = if decide (c = b) then Some a else pv h c).

(** [unlinked h x p n h']: [h'] is [h] after [x.unlink()], where [p] and [n]
    were the neighbours of [x]. *)
Definition unlinked (h : heap) (x p n : addr) (h' : heap) : Prop :=
  (∀ c, nx h' c = if decide (c = x) then Some x
                  else if decide (c = p) then Some n else nx h c) ∧
  (∀ c, pv h' c = if decide (c = x) then Some x
                  else if decide (c = n) then Some p else pv h c).

(** The structural invariant of the heap: [prev] and [next] are mutual
    inverses at every live node (so both always point at live nodes). *)
Definition WF (h : heap) : Prop :=
  (∀ a b, nx h a = Some b → pv h b = Some a) ∧
  (∀ a b, pv h a = Some b → nx h b = Some a).

(** [self_looped h a]: [a] is live and [a.prev == a.next == &a]. *)
Definition self_looped (h : heap) (a : addr) : Prop :=
  h !! a = Some (Elem a a).

(** [attached h bp v pos h']: [h'] is [h] after [link(bp, v); link(v, pos)]. *)
Definition attached (h : heap) (bp v pos : addr) (h' : heap) : Prop :=
  (∀ c, nx h' c = if decide (c = v) then Some pos
                  else if decide (c = bp) then Some v else nx h c) ∧
  (∀ c, pv h' c = if decide (c = pos) then Some v
                  else if decide (c = v) then Some bp else pv h c).

(** [spliced h bp first last pos bf al h']: [h'] is [h] after the three
    [link] calls of [splice]. *)
Definition spliced (h : heap) (bp first last pos bf al : addr) (h' : heap) : Prop :=
  (∀ c, nx h' c = if decide (c = bf) then Some al
                  else if decide (c = last) then Some pos
                  else if decide (c = bp) then Some first else nx h c) ∧
  (∀ c, pv h' c = if decide (c = al) then Some bf
                  else if decide (c = pos) then Some last
                  else if decide (c = first) then Some bp else pv h c).

(** [relocated h this other op on h']: [h'] is [h] after the body of the
    [if (other.is_linked())] of the move assignment. *)
Definition relocated (h : heap) (this other op on : addr) (h' : heap) : Prop :=
  (∀ c, nx h' c = if decide (c = op) then Some this
                  else if decide (c = this) then Some on
                  else if decide (c = other) then Some other else nx h c) ∧
  (∀ c, pv h' c = if decide (c = on) then Some this
                  else if decide (c = this) then Some op
                  else if decide (c = other) then Some other else pv h c).

(** ** Rings and list contents *)

(** [links h a b]: [b] directly follows [a]. *)
Definition links (h : heap) (a b : addr) : Prop :=
  nx h a = Some b ∧ pv h b = Some a.

(** [chain h a l b]: going forward from [a] one meets the nodes of [l] in
    order and then [b], each step being a two-way link. *)
Fixpoint chain (h : heap) (a : addr) (l : list addr) (b : addr) : Prop :=
  match l with
  | [] => links h a b
  | x :: l' => links h a x ∧ chain h x l' b
  end.

(** [cycle h l]: the distinct nodes of [l], in order, form a whole ring. *)
Definition cycle (h : heap) (l : list addr) : Prop :=
  match l with
  | [] => False
  | a :: l' => NoDup l ∧ chain h a l' a
  end.

(** [is_list h d xs]: the list whose sentinel is [d] holds exactly [xs],
    front to back. *)
Definition is_list (h : heap) (d : addr) (xs : list addr) : Prop :=
  cycle h (d :: xs).

(** The last node of [a :: l]. *)
Fixpoint last_of (a : addr) (l : list addr) : addr :=
  match l with
  | [] => a
  | x :: l' => last_of x l'
  end.

(** [without x l] is [l] with the node [x] taken out; [renamed x y l] is [l]
    with [y] standing where [x] stood. *)
Definition without (x : addr) (l : list addr) : list addr :=
  filter (λ c, c ≠ x) l.

Definition renamed (x y : addr) (l : list addr) : list addr :=
  (λ c, if decide (c = x) then y else c) <$> l.

(** The heap holding the nodes given as (address, prev, next). *)
Definition heap_of (l : list (addr * (addr * addr))) : heap :=
  list_to_map ((λ e, (e.1, Elem e.2.1 e.2.2)) <$> l).

(** A list [d = 1] holding [a = 2; b = 3; c = 4]. *)
Definition heap_abc : heap :=
  heap_of [(1, (4, 2)); (2, (1, 3)); (3, (2, 4)); (4, (3, 1))]%positive.

(** The invariant at one node: what [WF] asks of the entry [e] at [a]. *)
Definition WF_entry (h : heap) (a : addr) (e : list_element_base) : Prop :=
  pv h (next e) = Some a ∧ nx h (prev e) = Some a.

(** An empty list: the sentinel [d = 1] alone. *)
Definition heap_empty_list : heap := heap_of [(1, (1, 1))]%positive.

(** Two lists: [d1 = 1] holding [2; 3; 4] and [d2 = 5] holding [6]. *)
Definition heap_two_lists : heap :=
  heap_of [(1, (4, 2)); (2, (1, 3)); (3, (2, 4)); (4, (3, 1));
           (5, (6, 6)); (6, (5, 5))]%positive.

(** Two lists: [L1] with sentinel [1] holding [2; 3; 4], and the empty
    [L2] with sentinel [5]. *)
Definition heap_abc_and_empty : heap :=
  heap_of [(1, (4, 2)); (2, (1, 3)); (3, (2, 4)); (4, (3, 1));
           (5, (5, 5))]%positive.

(** A list [d = 1] holding the single member [2]. *)
Definition heap_singleton : heap := heap_of [(1, (2, 2)); (2, (1, 1))]%positive.

(** A list [d = 1] holding [2; 3]. *)
Definition heap_ab : heap :=
  heap_of [(1, (3, 2)); (2, (1, 3)); (3, (2, 1))]%positive.

(** The ring invariant: every live node lies on a ring, a cyclic sequence
    of distinct nodes in which [prev] and [next] are mutual inverses at
    every step; a self-looped node is a ring of one. *)
Definition ring_invariant (h : heap) : Prop :=
  ∀ a, is_Some (h !! a) → ∃ l, cycle h (a :: l).

(** The node reached from [a] by following [next] [i] times. *)
Definition forward (h : heap) (i : nat) (a : addr) : addr :=
  Nat.iter i (λ c, default c (nx h c)) a.

(** The invariant as the specification words it, relative to the sentinels
    of the lists that exist: the ring invariant, and every live node that
    is neither a sentinel nor a member of one of these lists is
    self-looped. *)
Definition claimed_invariant (sentinels : list addr) (h : heap) : Prop :=
  ring_invariant h ∧
  ∀ a, is_Some (h !! a) →
       (∀ d xs, d ∈ sentinels → is_list h d xs → a ∉ d :: xs) →
       self_looped h a.

(** [preserves m h]: from [h], the operation [m] returns and the ring
    invariant holds afterwards. *)
Definition preserves {A} (m : M A) (h : heap) : Prop :=
  ∃ r h', m h = Some (r, h') ∧ ring_invariant h'.

(** [keeps_dom m]: whenever [m] returns, the same addresses hold live
    nodes as before: nothing was allocated and nothing released. *)
Definition keeps_dom {A} (m : M A) : Prop :=
  ∀ h r h', m h = Some (r, h') → dom h' = dom h.


(** The list [1] holding [2; 3; 4] and an unlinked node [5]. *)
Definition heap_abc_and_node : heap :=
  heap_of [(1, (4, 2)); (2, (1, 3)); (3, (2, 4)); (4, (3, 1));
           (5, (5, 5))]%positive.

(** The list [1] holding [2; 3; 4; 5; 6]. *)
Definition heap_five : heap :=
  heap_of [(1, (6, 2)); (2, (1, 3)); (3, (2, 4)); (4, (3, 5)); (5, (4, 6));
           (6, (5, 1))]%positive.

(** ** Iterators and loops over the operations *)

(** [basic_iterator::operator++] and [operator--]: an iterator is the
    address of the node it stands on; [operator==] is equality of
    addresses. *)
Definition iter_incr (it : addr) : M addr := get_next it.
Definition iter_decr (it : addr) : M addr := get_prev it.

(** [for (auto it = last; it != first; ) { --it; visit(it); }]: the nodes
    seen going backwards from [last] down to [first]. *)
Fixpoint traverse_back (fuel : nat) (it first : addr) : M (list addr) :=
  if decide (it = first) then mret []
  else match fuel with
       | 0 => λ _, None
       | S fuel' =>
           p ← iter_decr it; l ← traverse_back fuel' p first; mret (p :: l)
       end.

Definition to_list_back (fuel : nat) (d : addr) : M (list addr) :=
  b ← begin_ d; e ← end_ d; traverse_back fuel e b.


(** [for (auto it = first; it != last; ) it = l.erase(it);] *)
Fixpoint erase_all (fuel : nat) (it last : addr) : M unit :=
  if decide (it = last) then mret ()
  else match fuel with
       | 0 => λ _, None
       | S fuel' => nxt ← erase it; erase_all fuel' nxt last
       end.

(** ** Proof automation *)

Ltac fields_cases :=
  repeat match goal with
  | H : context [decide (?a = ?b)] |- _ => destruct (decide (a = b)); simplify_eq
  | |- context [decide (?a = ?b)] => destruct (decide (a = b)); simplify_eq
  end.

(** ** Fields, triples and the invariant *)

Section fields.
Implicit Types (h : heap) (a b c : addr).

Lemma nx_Some h a b : nx h a = Some b ↔ ∃ p, h !! a = Some (Elem p b).
Proof.
  unfold nx. split.
  - destruct (h !! a) as [[p n]|]; simpl; intros [= <-]; eauto.
  - by intros [p ->].
Qed.

Lemma pv_Some h a b : pv h a = Some b ↔ ∃ n, h !! a = Some (Elem b n).
Proof.
  unfold pv. split.
  - destruct (h !! a) as [[p n]|]; simpl; intros [= <-]; eauto.
  - by intros [n ->].
Qed.

Lemma nx_is_Some h a : is_Some (nx h a) ↔ is_Some (h !! a).
Proof. unfold nx. by rewrite fmap_is_Some. Qed.

Lemma pv_is_Some h a : is_Some (pv h a) ↔ is_Some (h !! a).
Proof. unfold pv. by rewrite fmap_is_Some. Qed.

Lemma lookup_fields h a p n :
  h !! a = Some (Elem p n) ↔ pv h a = Some p ∧ nx h a = Some n.
Proof.
  unfold nx, pv. destruct (h !! a) as [[p' n']|]; simpl; [|by intuition].
  split; [by intros [= -> ->]|by intros [[= ->] [= ->]]].
Qed.

Lemma self_looped_fields h a :
  self_looped h a ↔ pv h a = Some a ∧ nx h a = Some a.
Proof. apply lookup_fields. Qed.

(** A heap is determined by its two field views. *)
Lemma heap_ext h h' :
  (∀ c, nx h' c = nx h c) → (∀ c, pv h' c = pv h c) → h' = h.
Proof.
  intros Hn Hp. apply map_eq. intros c.
  specialize (Hn c). specialize (Hp c). unfold nx, pv in *.
  destruct (h' !! c) as [[p' n']|], (h !! c) as [[p n]|]; naive_solver.
Qed.
End fields.

Section wp_rules.
Context {A B : Type}.
Implicit Types (h : heap) (a b c : addr).

Lemma wp_ret (x : A) h (Q : A → heap → Prop) : Q x h → wp (mret x) h Q.
Proof. intros HQ. by exists x, h. Qed.

Lemma wp_bind (m : M A) (f : A → M B) h (Q : B → heap → Prop) :
  wp m h (λ x h', wp (f x) h' Q) → wp (m ≫= f) h Q.
Proof.
  intros (x & h1 & Hm & r & h2 & Hf & HQ). exists r, h2. split; [|done].
  unfold mbind, M_bind. by rewrite Hm.
Qed.

Lemma wp_mono (m : M A) h (Q Q' : A → heap → Prop) :
  wp m h Q → (∀ r h', Q r h' → Q' r h') → wp m h Q'.
Proof. intros (r & h' & Hm & HQ) HQQ. exists r, h'. eauto. Qed.

Lemma wp_run (m : M A) h (Q : A → heap → Prop) r h' :
  m h = Some (r, h') → wp m h Q → Q r h'.
Proof. intros Hm (r' & h'' & Hm' & HQ). by simplify_eq. Qed.
End wp_rules.

Section wp_prims.
Implicit Types (h : heap) (a b c : addr).

Lemma wp_get_prev a p h (Q : addr → heap → Prop) :
  pv h a = Some p → Q p h → wp (get_prev a) h Q.
Proof.
  intros [n Ha]%pv_Some HQ. exists p, h. split; [|done].
  unfold get_prev. by rewrite Ha.
Qed.

Lemma wp_get_next a n h (Q : addr → heap → Prop) :
  nx h a = Some n → Q n h → wp (get_next a) h Q.
Proof.
  intros [p Ha]%nx_Some HQ. exists n, h. split; [|done].
  unfold get_next. by rewrite Ha.
Qed.

Lemma wp_set_next a b h (Q : unit → heap → Prop) :
  is_Some (nx h a) →
  (∀ h', (∀ c, nx h' c = if decide (c = a) then Some b else nx h c) →
         (∀ c, pv h' c = pv h c) → Q () h') →
  wp (set_next a b) h Q.
Proof.
  intros [[p n] Ha]%nx_is_Some HQ. eexists (), _. split.
  - unfold set_next. by rewrite Ha.
  - apply HQ; intros c; unfold nx, pv; rewrite lookup_insert;
      repeat case_decide; simplify_eq; simpl; by rewrite ?Ha.
Qed.

Lemma wp_set_prev a b h (Q : unit → heap → Prop) :
  is_Some (nx h a) →
  (∀ h', (∀ c, nx h' c = nx h c) →
         (∀ c, pv h' c = if decide (c = a) then Some b else pv h c) → Q () h') →
  wp (set_prev a b) h Q.
Proof.
  intros [[p n] Ha]%nx_is_Some HQ. eexists (), _. split.
  - unfold set_prev. by rewrite Ha.
  - apply HQ; intros c; unfold nx, pv; rewrite lookup_insert;
      repeat case_decide; simplify_eq; simpl; by rewrite ?Ha.
Qed.

Lemma wp_construct this h (Q : unit → heap → Prop) :
  (∀ h', (∀ c, nx h' c = if decide (c = this) then Some this else nx h c) →
         (∀ c, pv h' c = if decide (c = this) then Some this else pv h c) →
         Q () h') →
  wp (construct this) h Q.
Proof.
  intros HQ. eexists (), _. split; [done|].
  apply HQ; intros c; unfold nx, pv; rewrite lookup_insert;
    repeat case_decide; by simplify_eq.
Qed.

Lemma wp_destroy this h (Q : unit → heap → Prop) :
  (∀ h', (∀ c, nx h' c = if decide (c = this) then None else nx h c) →
         (∀ c, pv h' c = if decide (c = this) then None else pv h c) →
         Q () h') →
  wp (destroy this) h Q.
Proof.
  intros HQ. eexists (), _. split; [done|].
  apply HQ; intros c; unfold nx, pv; rewrite lookup_delete;
    repeat case_decide; by simplify_eq.
Qed.

Lemma wp_is_linked this p h (Q : bool → heap → Prop) :
  pv h this = Some p → Q (bool_decide (p ≠ this)) h → wp (is_linked this) h Q.
Proof.
  intros Hp HQ. unfold is_linked. apply wp_bind.
  eapply wp_get_prev; [done|]. by apply wp_ret.
Qed.

Lemma wp_link a b h (Q : unit → heap → Prop) :
  is_Some (nx h a) → is_Some (nx h b) →
  (∀ h', linked h a b h' → Q () h') →
  wp (link a b) h Q.
Proof.
  intros Ha Hb HQ. unfold link. apply wp_bind.
  apply wp_set_next; [done|]. intros h1 Hn1 Hp1.
  apply wp_set_prev; [by rewrite Hn1; case_decide|]. intros h2 Hn2 Hp2.
  apply HQ. split; intros c.
  - by rewrite Hn2, Hn1.
  - by rewrite Hp2, Hp1.
Qed.

Lemma wp_unlink x p n h (Q : unit → heap → Prop) :
  pv h x = Some p → nx h x = Some n →
  is_Some (nx h p) → is_Some (nx h n) →
  (∀ h', unlinked h x p n h' → Q () h') →
  wp (unlink x) h Q.
Proof.
  intros Hp Hn Hlp Hln HQ. unfold unlink.
  apply wp_bind. eapply wp_get_prev; [done|].
  apply wp_bind. eapply wp_get_next; [done|].
  apply wp_bind. apply wp_link; [done..|]. intros h1 [Hn1 Hp1].
  apply wp_bind. apply wp_set_next.
  { rewrite Hn1. case_decide; [done|]. by rewrite Hn. }
  intros h2 Hn2 Hp2. apply wp_set_prev.
  { rewrite Hn2. by case_decide. }
  intros h3 Hn3 Hp3. apply HQ. split; intros c.
  - by rewrite Hn3, Hn2, Hn1.
  - by rewrite Hp3, Hp2, Hp1.
Qed.
End wp_prims.

Section wf_steps.
Implicit Types (h : heap) (a b c : addr).

Lemma WF_unlinked h x p n h' :
  WF h → pv h x = Some p → nx h x = Some n → unlinked h x p n h' → WF h'.
Proof.
  intros [W1 W2] Hp Hn [En Ep].
  pose proof (W1 _ _ Hn). pose proof (W2 _ _ Hp).
  split; intros a b; rewrite En, Ep; intros; fields_cases; naive_solver.
Qed.

Lemma WF_attached h bp v pos h' :
  WF h → self_looped h v → v ≠ pos → pv h pos = Some bp →
  attached h bp v pos h' → WF h'.
Proof.
  intros [W1 W2] [Hvp Hvn]%self_looped_fields Hne Hp [En Ep].
  pose proof (W2 _ _ Hp).
  split; intros a b; rewrite En, Ep; intros; fields_cases; naive_solver.
Qed.

Lemma WF_spliced h bp first last pos bf le h' :
  WF h → first ≠ le → pos ≠ le →
  pv h pos = Some bp → pv h first = Some bf → pv h le = Some last →
  spliced h bp first last pos bf le h' → WF h'.
Proof.
  intros [W1 W2] Hfl Hne Hp Hf Hl [En Ep].
  pose proof (W2 _ _ Hp). pose proof (W2 _ _ Hf). pose proof (W2 _ _ Hl).
  split; intros a b; rewrite En, Ep; intros; fields_cases; naive_solver.
Qed.

Lemma WF_relocated h this other op on h' :
  WF h → self_looped h this → this ≠ other →
  pv h other = Some op → nx h other = Some on → op ≠ other →
  relocated h this other op on h' → WF h'.
Proof.
  intros [W1 W2] [Hvp Hvn]%self_looped_fields Hne Hp Hn Hop [En Ep].
  pose proof (W2 _ _ Hp). pose proof (W1 _ _ Hn).
  split; intros a b; rewrite En, Ep; intros; fields_cases; naive_solver.
Qed.

Lemma WF_constructed h this h' :
  WF h → nx h this = None →
  (∀ c, nx h' c = if decide (c = this) then Some this else nx h c) →
  (∀ c, pv h' c = if decide (c = this) then Some this else pv h c) →
  WF h'.
Proof.
  intros [W1 W2] Hfresh En Ep.
  assert (pv h this = None).
  { destruct (pv h this) eqn:E; [|done].
    assert (is_Some (nx h this)) as [? ?]; [|congruence].
    apply nx_is_Some, pv_is_Some. eauto. }
  split; intros a b; rewrite En, Ep; intros; fields_cases; naive_solver.
Qed.
End wf_steps.

(** ** Chains and rings *)

Section chains.
Implicit Types (h : heap) (a b c x : addr) (l : list addr).

Lemma last_of_app a l1 x l2 : last_of a (l1 ++ x :: l2) = last_of x l2.
Proof. revert a. induction l1 as [|y l1 IH]; intros a; simpl; auto. Qed.

Lemma last_of_snoc a l x : last_of a (l ++ [x]) = x.
Proof. by rewrite last_of_app. Qed.

Lemma last_of_elem a l : last_of a l ∈ a :: l.
Proof.
  revert a. induction l as [|y l IH]; intros a; simpl.
  - apply list_elem_of_here.
  - apply list_elem_of_further, IH.
Qed.

Lemma last_of_cons_elem a x l : last_of a (x :: l) ∈ x :: l.
Proof. simpl. apply last_of_elem. Qed.

Lemma chain_app h a l1 x l2 b :
  chain h a (l1 ++ x :: l2) b ↔ chain h a l1 x ∧ chain h x l2 b.
Proof.
  revert a. induction l1 as [|y l1 IH]; intros a; simpl; [done|].
  rewrite IH. tauto.
Qed.

Lemma chain_snoc h a l x b :
  chain h a (l ++ [x]) b ↔ chain h a l x ∧ links h x b.
Proof. apply chain_app. Qed.

Lemma chain_first h a l b : chain h a l b → nx h a = Some (hd b l).
Proof. destruct l; simpl; unfold links; tauto. Qed.

Lemma chain_last h a l b : chain h a l b → pv h b = Some (last_of a l).
Proof.
  revert a. induction l as [|y l IH]; intros a; simpl; unfold links; [tauto|].
  intros [_ ?]. eauto.
Qed.

Lemma chain_last_nx h a l b : chain h a l b → nx h (last_of a l) = Some b.
Proof.
  revert a. induction l as [|y l IH]; intros a; simpl; unfold links; [tauto|].
  intros [_ ?]. eauto.
Qed.

Lemma chain_first_pv h a l b : chain h a l b → pv h (hd b l) = Some a.
Proof. destruct l; simpl; unfold links; tauto. Qed.

(** Only the forward pointers of [a :: l] and the backward pointers of
    [l ++ [b]] matter to a chain. *)
Lemma chain_frame h h' a l b :
  (∀ c, c ∈ a :: l → nx h' c = nx h c) →
  (∀ c, c ∈ l ++ [b] → pv h' c = pv h c) →
  chain h a l b → chain h' a l b.
Proof.
  revert a. induction l as [|y l IH]; intros a Hn Hp; simpl; unfold links.
  - rewrite Hn, Hp by set_solver. tauto.
  - rewrite Hn, Hp by set_solver. intros [? ?]. split; [done|].
    apply IH; [| |done]; intros c Hc; [apply Hn|apply Hp]; set_solver.
Qed.

(** Redirecting the far end of a chain. *)
Lemma chain_retarget h h' a l b b' :
  NoDup (a :: l) →
  (∀ c, c ∈ a :: l → c ≠ last_of a l → nx h' c = nx h c) →
  (∀ c, c ∈ l → pv h' c = pv h c) →
  links h' (last_of a l) b' →
  chain h a l b → chain h' a l b'.
Proof.
  revert a. induction l as [|y l IH]; intros a Hnd Hn Hp Hl; simpl; [done|].
  unfold links at 1 2. intros [[? ?] ?].
  apply NoDup_cons in Hnd as [Ha Hnd].
  assert (a ≠ last_of y l).
  { intros ->. apply Ha, last_of_elem. }
  rewrite Hn, Hp by (simpl; set_solver). split; [done|].
  apply IH; [done| | |done..].
  - intros c Hc ?. apply Hn; simpl; [set_solver|done].
  - intros c Hc. apply Hp. set_solver.
Qed.

(** Every node of a chain has both neighbours on the chain or at its ends. *)
Lemma chain_nx_elem h a l b c c' :
  chain h a l b → c ∈ a :: l → nx h c = Some c' → c' ∈ l ++ [b].
Proof.
  revert a. induction l as [|y l IH]; intros a; simpl; unfold links.
  - intros [? ?] ->%list_elem_of_singleton ?. simplify_eq. set_solver.
  - intros [[? ?] Hc] [->|Hin]%elem_of_cons Hnx.
    + simplify_eq. set_solver.
    + specialize (IH _ Hc Hin Hnx). set_solver.
Qed.

Lemma chain_pv_elem h a l b c c' :
  chain h a l b → c ∈ l ++ [b] → pv h c = Some c' → c' ∈ a :: l.
Proof.
  revert a. induction l as [|y l IH]; intros a; simpl; unfold links.
  - intros [? ?] ->%list_elem_of_singleton ?. simplify_eq. set_solver.
  - intros [[? ?] Hc] [->|Hin]%elem_of_cons Hpv.
    + simplify_eq. set_solver.
    + specialize (IH _ Hc Hin Hpv). set_solver.
Qed.

Lemma cycle_nx_elem h l c c' :
  cycle h l → c ∈ l → nx h c = Some c' → c' ∈ l.
Proof.
  destruct l as [|a l]; [done|]. intros [_ Hc] Hin Hnx.
  pose proof (chain_nx_elem _ _ _ _ _ _ Hc Hin Hnx). set_solver.
Qed.

Lemma cycle_pv_elem h l c c' :
  cycle h l → c ∈ l → pv h c = Some c' → c' ∈ l.
Proof.
  destruct l as [|a l]; [done|]. intros [_ Hc] Hin Hpv.
  eapply chain_pv_elem in Hpv; [done..|set_solver].
Qed.

Lemma chain_live h a l b c : chain h a l b → c ∈ a :: l → is_Some (nx h c).
Proof.
  revert a. induction l as [|y l IH]; intros a; simpl; unfold links.
  - intros [? ?] ->%list_elem_of_singleton. eauto.
  - intros [[? ?] Hc] [->|Hin]%elem_of_cons; eauto.
Qed.

Lemma cycle_live h l c : cycle h l → c ∈ l → is_Some (nx h c).
Proof.
  destruct l as [|a l]; [done|]. intros [_ Hc]. by eapply chain_live.
Qed.

Lemma cycle_rotate h l1 l2 : cycle h (l1 ++ l2) → cycle h (l2 ++ l1).
Proof.
  destruct l2 as [|b l2]; [by rewrite app_nil_r|].
  destruct l1 as [|a l1]; [by rewrite app_nil_r|].
  simpl. intros [Hnd [H1 H2]%chain_app]. split.
  - eapply NoDup_Permutation_proper; [|exact Hnd].
    change (b :: l2 ++ a :: l1) with ((b :: l2) ++ (a :: l1)).
    change (a :: l1 ++ b :: l2) with ((a :: l1) ++ (b :: l2)).
    apply Permutation_app_comm.
  - apply chain_app. done.
Qed.

Lemma cycle_frame h h' l :
  (∀ c, c ∈ l → nx h' c = nx h c) →
  (∀ c, c ∈ l → pv h' c = pv h c) →
  cycle h l → cycle h' l.
Proof.
  destruct l as [|a l]; [done|]. intros Hn Hp [Hnd Hc]. split; [done|].
  eapply chain_frame; [| |done]; intros c Hc'; [apply Hn|apply Hp]; set_solver.
Qed.

Lemma cycle_singleton h x : cycle h [x] ↔ self_looped h x.
Proof.
  rewrite self_looped_fields. simpl. unfold links.
  split; [tauto|]. intros. split; [apply NoDup_singleton|tauto].
Qed.

Lemma is_list_nil h d : is_list h d [] ↔ self_looped h d.
Proof. apply cycle_singleton. Qed.
End chains.

Lemma forall_elem_cons (P : addr → Prop) (a : addr) (l : list addr) :
  (∀ c, c ∈ a :: l → P c) → P a ∧ (∀ c, c ∈ l → P c).
Proof. intros H. split; [|intros c Hc]; apply H; set_solver. Qed.

Lemma forall_elem_app (P : addr → Prop) (l1 l2 : list addr) :
  (∀ c, c ∈ l1 ++ l2 → P c) → (∀ c, c ∈ l1 → P c) ∧ (∀ c, c ∈ l2 → P c).
Proof. intros H. split; intros c Hc; apply H; set_solver. Qed.

Ltac nodup_inv :=
  repeat match goal with
  | H : ∀ c, c ∈ _ :: _ → _ |- _ => apply forall_elem_cons in H as [? H]
  | H : ∀ c, c ∈ _ ++ _ → _ |- _ => apply forall_elem_app in H as [? H]
  | H : ∀ c, c ∈ [] → _ |- _ => clear H
  | H : NoDup (_ :: _) |- _ => apply NoDup_cons in H as [? H]
  | H : NoDup (_ ++ _) |- _ => apply NoDup_app in H as (? & ? & ?)
  | H : NoDup [] |- _ => clear H
  end.

Ltac nodup_solve :=
  repeat first [rewrite NoDup_cons | rewrite NoDup_app];
  repeat split; try done; try apply NoDup_nil_2; try set_solver.

Ltac elem_absurd :=
  exfalso; nodup_inv;
  repeat match goal with
  | H : chain _ _ _ _ |- _ => clear H
  | H : cycle _ _ |- _ => clear H
  | H : nx _ _ = _ |- _ => clear H
  | H : pv _ _ = _ |- _ => clear H
  | H : ∀ c, nx _ c = _ |- _ => clear H
  | H : ∀ c, pv _ c = _ |- _ => clear H
  | H : NoDup _ |- _ => clear H
  end;
  set_solver.

Section rings.
Implicit Types (h : heap) (a b c x : addr) (l : list addr).

Lemma hd_elem a l : hd a l ∈ l ++ [a].
Proof. destruct l; simpl; set_solver. Qed.

Lemma chain_retarget' h h' a l b b' p :
  NoDup (a :: l) → chain h a l b → pv h b = Some p →
  (∀ c, c ∈ a :: l → c ≠ p → nx h' c = nx h c) →
  (∀ c, c ∈ l → pv h' c = pv h c) →
  links h' p b' →
  chain h' a l b'.
Proof.
  intros Hnd Hc Hp Hn Hp' Hl.
  pose proof (chain_last _ _ _ _ Hc) as Hp2. rewrite Hp in Hp2.
  injection Hp2 as ->. by eapply chain_retarget.
Qed.

Lemma cycle_unlinked_in h h' a l1 x l2 p n :
  cycle h (a :: l1 ++ x :: l2) →
  pv h x = Some p → nx h x = Some n → unlinked h x p n h' →
  cycle h' (a :: l1 ++ l2).
Proof.
  intros [Hnd [H1 H2]%chain_app] Hp Hn [En Ep].
  assert (p ∈ a :: l1) by (eapply chain_pv_elem; [done| |done]; set_solver).
  assert (n ∈ l2 ++ [a]) by (eapply chain_nx_elem; [done| |done]; set_solver).
  split; [nodup_inv; nodup_solve|].
  assert (chain h' a l1 n) as H1'.
  { apply (chain_retarget' h h' a l1 x n p); [nodup_inv; nodup_solve|done..| | |].
    - intros c Hc Hne. rewrite En. fields_cases; try done; elem_absurd.
    - intros c Hc. rewrite Ep. fields_cases; try done; elem_absurd.
    - split; [rewrite En|rewrite Ep]; fields_cases; try done; elem_absurd. }
  destruct l2 as [|y l2]; simpl in *.
  { rewrite app_nil_r. destruct H2 as [? _]. by simplify_eq. }
  destruct H2 as [[? _] H2]. simplify_eq.
  apply chain_app. split; [done|].
  eapply chain_frame; [| |exact H2].
  - intros c Hc. rewrite En. fields_cases; try done; elem_absurd.
  - intros c Hc. rewrite Ep. fields_cases; try done; elem_absurd.
Qed.

Lemma unlinked_self_looped h h' x p n :
  unlinked h x p n h' → self_looped h' x.
Proof.
  intros [En Ep]. apply self_looped_fields.
  rewrite En, Ep. by rewrite !decide_True.
Qed.

Lemma cycle_unlinked_out h h' l x p n :
  WF h → cycle h l → x ∉ l →
  pv h x = Some p → nx h x = Some n → unlinked h x p n h' →
  cycle h' l.
Proof.
  intros [W1 W2] Hc Hx Hp Hn [En Ep]. eapply cycle_frame; [| |done].
  - intros c Hin. rewrite En. fields_cases; try done.
    exfalso. apply Hx. eapply cycle_nx_elem; eauto.
  - intros c Hin. rewrite Ep. fields_cases; try done.
    exfalso. apply Hx. eapply cycle_pv_elem; eauto.
Qed.

Lemma cycle_attached h h' pos l v bp :
  cycle h (pos :: l) → v ∉ pos :: l → pv h pos = Some bp →
  attached h bp v pos h' →
  cycle h' (pos :: l ++ [v]).
Proof.
  intros [Hnd Hc] Hv Hp [En Ep].
  assert (bp ∈ pos :: l) by (eapply chain_pv_elem; [done| |done]; set_solver).
  split; [nodup_inv; nodup_solve|].
  apply chain_snoc. split.
  - apply (chain_retarget' h h' pos l pos v bp); [done..| | |].
    + intros c Hin Hne. rewrite En. fields_cases; try done; elem_absurd.
    + intros c Hin. rewrite Ep. fields_cases; try done; elem_absurd.
    + split; [rewrite En|rewrite Ep]; fields_cases; try done; elem_absurd.
  - split; [rewrite En|rewrite Ep]; fields_cases; try done; elem_absurd.
Qed.

Lemma cycle_attached_out h h' l pos v bp :
  WF h → cycle h l → v ∉ l → pos ∉ l → pv h pos = Some bp →
  attached h bp v pos h' →
  cycle h' l.
Proof.
  intros [W1 W2] Hc Hv Hpos Hp [En Ep]. eapply cycle_frame; [| |done].
  - intros c Hin. rewrite En. fields_cases; try done.
    exfalso. apply Hpos. eapply cycle_nx_elem; eauto.
  - intros c Hin. rewrite Ep. fields_cases; done.
Qed.
Lemma cycle_spliced_other h h' pos l first mid le rest bp bf last :
  cycle h (pos :: l) → cycle h (first :: mid ++ le :: rest) →
  (∀ c, c ∈ pos :: l → c ∉ first :: mid ++ le :: rest) →
  pv h pos = Some bp → pv h first = Some bf → pv h le = Some last →
  spliced h bp first last pos bf le h' →
  cycle h' (pos :: l ++ first :: mid) ∧ cycle h' (le :: rest).
Proof.
  intros [Hnd1 Hc1] [Hnd2 [Hc2 Hc3]%chain_app] Hdisj Hp Hf Hl [En Ep].
  assert (bp ∈ pos :: l) by (eapply chain_pv_elem; [done| |done]; set_solver).
  assert (bf ∈ le :: rest) by (eapply chain_pv_elem; [done| |done]; set_solver).
  assert (last ∈ first :: mid) by (eapply chain_pv_elem; [done| |done]; set_solver).
  split; (split; [nodup_inv; nodup_solve|]).
  - apply chain_app. split.
    + apply (chain_retarget' h h' pos l pos first bp); [done..| | |].
      * intros c Hin Hne. rewrite En. fields_cases; try done; elem_absurd.
      * intros c Hin. rewrite Ep. fields_cases; try done; elem_absurd.
      * split; [rewrite En|rewrite Ep]; fields_cases; try done; elem_absurd.
    + apply (chain_retarget' h h' first mid le pos last);
        [nodup_inv; nodup_solve|done..| | |].
      * intros c Hin Hne. rewrite En. fields_cases; try done; elem_absurd.
      * intros c Hin. rewrite Ep. fields_cases; try done; elem_absurd.
      * split; [rewrite En|rewrite Ep]; fields_cases; try done; elem_absurd.
  - apply (chain_retarget' h h' le rest first le bf);
      [nodup_inv; nodup_solve|done..| | |].
    + intros c Hin Hne. rewrite En. fields_cases; try done; elem_absurd.
    + intros c Hin. rewrite Ep. fields_cases; try done; elem_absurd.
    + split; [rewrite En|rewrite Ep]; fields_cases; try done; elem_absurd.
Qed.

Lemma cycle_spliced_same h h' pos l1 first mid le l2 bp bf last :
  cycle h (pos :: l1 ++ first :: mid ++ le :: l2) →
  pv h pos = Some bp → pv h first = Some bf → pv h le = Some last →
  spliced h bp first last pos bf le h' →
  cycle h' (pos :: l1 ++ le :: l2 ++ first :: mid).
Proof.
  intros [Hnd [Hc1 [Hc2 Hc3]%chain_app]%chain_app] Hp Hf Hl [En Ep].
  assert (bp ∈ le :: l2) by (eapply chain_pv_elem; [done| |done]; set_solver).
  assert (bf ∈ pos :: l1) by (eapply chain_pv_elem; [done| |done]; set_solver).
  assert (last ∈ first :: mid) by (eapply chain_pv_elem; [done| |done]; set_solver).
  split; [nodup_inv; nodup_solve|].
  apply chain_app. split; [|apply chain_app; split].
  - apply (chain_retarget' h h' pos l1 first le bf);
      [nodup_inv; nodup_solve|done..| | |].
    + intros c Hin Hne. rewrite En. fields_cases; try done; elem_absurd.
    + intros c Hin. rewrite Ep. fields_cases; try done; elem_absurd.
    + split; [rewrite En|rewrite Ep]; fields_cases; try done; elem_absurd.
  - apply (chain_retarget' h h' le l2 pos first bp);
      [nodup_inv; nodup_solve|done..| | |].
    + intros c Hin Hne. rewrite En. fields_cases; try done; elem_absurd.
    + intros c Hin. rewrite Ep. fields_cases; try done; elem_absurd.
    + split; [rewrite En|rewrite Ep]; fields_cases; try done; elem_absurd.
  - apply (chain_retarget' h h' first mid le pos last);
      [nodup_inv; nodup_solve|done..| | |].
    + intros c Hin Hne. rewrite En. fields_cases; try done; elem_absurd.
    + intros c Hin. rewrite Ep. fields_cases; try done; elem_absurd.
    + split; [rewrite En|rewrite Ep]; fields_cases; try done; elem_absurd.
Qed.

Lemma cycle_spliced_out h h' l pos first le bp bf last :
  WF h → cycle h l → pos ∉ l → first ∉ l → le ∉ l →
  pv h pos = Some bp → pv h first = Some bf → pv h le = Some last →
  spliced h bp first last pos bf le h' →
  cycle h' l.
Proof.
  intros [W1 W2] Hc Hpos Hfirst Hle Hp Hf Hl [En Ep].
  eapply cycle_frame; [| |done].
  - intros c Hin. rewrite En. fields_cases; try done; exfalso.
    + apply Hfirst. eapply cycle_nx_elem; eauto.
    + apply Hle. eapply cycle_nx_elem; eauto.
    + apply Hpos. eapply cycle_nx_elem; eauto.
  - intros c Hin. rewrite Ep. fields_cases; done.
Qed.

Lemma cycle_relocated h h' this other on r op :
  cycle h (other :: on :: r) → this ∉ other :: on :: r →
  pv h other = Some op →
  relocated h this other op on h' →
  cycle h' (this :: on :: r) ∧ self_looped h' other.
Proof.
  intros [Hnd [[Hon _] Hc]] Hthis Hp [En Ep].
  assert (op ∈ on :: r) by (eapply chain_pv_elem; [done| |done]; set_solver).
  split.
  - split; [nodup_inv; nodup_solve|]. split.
    + split; [rewrite En|rewrite Ep]; fields_cases; try done; elem_absurd.
    + apply (chain_retarget' h h' on r other this op);
        [nodup_inv; nodup_solve|done..| | |].
      * intros c Hin Hne. rewrite En. fields_cases; try done; elem_absurd.
      * intros c Hin. rewrite Ep. fields_cases; try done; elem_absurd.
      * split; [rewrite En|rewrite Ep]; fields_cases; try done; elem_absurd.
  - apply self_looped_fields.
    split; [rewrite Ep|rewrite En]; fields_cases; try done; elem_absurd.
Qed.

Lemma cycle_relocated_out h h' l this other op on :
  WF h → cycle h l → this ∉ l → other ∉ l →
  pv h other = Some op → nx h other = Some on →
  relocated h this other op on h' →
  cycle h' l.
Proof.
  intros [W1 W2] Hc Hthis Hother Hp Hn [En Ep].
  eapply cycle_frame; [| |done].
  - intros c Hin. rewrite En. fields_cases; try done; exfalso.
    apply Hother. eapply cycle_nx_elem; eauto.
  - intros c Hin. rewrite Ep. fields_cases; try done; exfalso.
    apply Hother. eapply cycle_pv_elem; eauto.
Qed.
End rings.

Section general_rings.
Implicit Types (h : heap) (a b c x : addr) (l : list addr).

Lemma without_notin x l : x ∉ l → without x l = l.
Proof.
  unfold without. induction l as [|y l IH]; [done|].
  intros [? ?]%not_elem_of_cons. rewrite filter_cons_True by done.
  by rewrite IH.
Qed.

Lemma without_app x l1 l2 : without x (l1 ++ l2) = without x l1 ++ without x l2.
Proof. apply filter_app. Qed.

Lemma without_cons_eq x l : without x (x :: l) = without x l.
Proof. unfold without. rewrite filter_cons_False; [done|]. by intros []. Qed.

Lemma without_cons_ne x y l : y ≠ x → without x (y :: l) = y :: without x l.
Proof. intros. unfold without. by rewrite filter_cons_True. Qed.

Lemma without_split x l1 l2 :
  NoDup (l1 ++ x :: l2) → without x (l1 ++ x :: l2) = l1 ++ l2.
Proof.
  intros Hnd. nodup_inv.
  rewrite without_app, without_cons_eq, !without_notin; set_solver.
Qed.

Lemma without_elem x l c : c ∈ without x l ↔ c ≠ x ∧ c ∈ l.
Proof. unfold without. by rewrite list_elem_of_filter. Qed.

Lemma renamed_notin x y l : x ∉ l → renamed x y l = l.
Proof.
  unfold renamed. induction l as [|z l IH]; [done|].
  intros [? ?]%not_elem_of_cons. rewrite fmap_cons, decide_False by done.
  f_equal. by apply IH.
Qed.

Lemma renamed_split x y l1 l2 :
  NoDup (l1 ++ x :: l2) → renamed x y (l1 ++ x :: l2) = l1 ++ y :: l2.
Proof.
  intros Hnd. nodup_inv. unfold renamed.
  rewrite fmap_app, fmap_cons, decide_True by done.
  fold (renamed x y l1). fold (renamed x y l2).
  rewrite !renamed_notin; set_solver.
Qed.

Lemma cycle_NoDup h l : cycle h l → NoDup l.
Proof. destruct l; [done|]. by intros [? _]. Qed.

Lemma cycle_unlinked h h' l x p n :
  WF h → cycle h l →
  pv h x = Some p → nx h x = Some n → unlinked h x p n h' →
  without x l ≠ [] →
  cycle h' (without x l).
Proof.
  intros HWF Hc Hp Hn Hu Hne.
  destruct (decide (x ∈ l)) as [Hin|Hout].
  - apply list_elem_of_split in Hin as (l1 & l2 & ->).
    pose proof (cycle_NoDup _ _ Hc) as Hnd.
    rewrite without_split in * by done.
    destruct l1 as [|a l1].
    + destruct l2 as [|a l2]; [done|]. simpl in *.
      apply (cycle_rotate _ [x] (a :: l2)) in Hc. simpl in Hc.
      eapply cycle_unlinked_in in Hc; [|done..]. by rewrite app_nil_r in Hc.
    + by eapply cycle_unlinked_in.
  - rewrite without_notin by done. by eapply cycle_unlinked_out.
Qed.

Lemma cycle_relocated_gen h h' l this other op on :
  cycle h l → other ∈ l → this ∉ l → l ≠ [other] →
  pv h other = Some op → nx h other = Some on →
  relocated h this other op on h' →
  cycle h' (renamed other this l) ∧ self_looped h' other.
Proof.
  intros Hc Hin Hthis Hne Hp Hn Hr.
  apply list_elem_of_split in Hin as (l1 & l2 & ->).
  pose proof (cycle_NoDup _ _ Hc) as Hnd.
  rewrite renamed_split by done.
  apply (cycle_rotate _ l1 (other :: l2)) in Hc. simpl in Hc.
  destruct (l2 ++ l1) as [|on' r] eqn:Hr'.
  { apply app_eq_nil in Hr' as [-> ->]. done. }
  assert (on' = on) as ->.
  { destruct Hc as [_ [[? _] _]]. congruence. }
  assert (this ∉ other :: on :: r) by (rewrite <-Hr'; set_solver).
  destruct (cycle_relocated h h' this other on r op) as [Hc' Hs]; [done..|].
  split; [|done]. rewrite <-Hr' in Hc'.
  by apply (cycle_rotate _ (this :: l2) l1) in Hc'.
Qed.

(** Two rings that share a node have the same nodes. *)
Lemma chain_elem_closed h a l b (S : addr → Prop) :
  chain h a l b → S a → (∀ x y, S x → nx h x = Some y → S y) →
  ∀ e, e ∈ l → S e.
Proof.
  revert a. induction l as [|y l IH]; intros a; simpl; [set_solver|].
  intros [[Hn _] Hc] Ha Hcl e [->|He]%elem_of_cons; [by eapply Hcl|].
  eapply IH; [done| |done..]. by eapply Hcl.
Qed.

Lemma cycle_share h l1 l2 c :
  cycle h l1 → cycle h l2 → c ∈ l1 → c ∈ l2 → ∀ e, e ∈ l1 → e ∈ l2.
Proof.
  intros Hc1 Hc2 Hin1 Hin2 e He.
  apply list_elem_of_split in Hin1 as (la & lb & ->).
  apply (cycle_rotate _ la (c :: lb)) in Hc1. simpl in Hc1.
  destruct Hc1 as [_ Hc1].
  destruct (decide (e = c)) as [->|]; [done|].
  apply (chain_elem_closed h c (lb ++ la) c (λ x, x ∈ l2)); [done..| |set_solver].
  intros x y Hx Hnx. by eapply cycle_nx_elem.
Qed.

Lemma is_list_attached h h' d ys zs v bp :
  is_list h d (ys ++ zs) → v ∉ d :: ys ++ zs →
  pv h (hd d zs) = Some bp → attached h bp v (hd d zs) h' →
  is_list h' d (ys ++ v :: zs).
Proof.
  unfold is_list. intros Hc Hv Hp Ha. destruct zs as [|z zs]; simpl in *.
  - rewrite app_nil_r in *. by eapply cycle_attached.
  - apply (cycle_rotate _ (d :: ys) (z :: zs)) in Hc. simpl in Hc.
    apply (cycle_attached h h' z (zs ++ d :: ys) v bp) in Hc; [|set_solver|done..].
    rewrite <-app_assoc in Hc.
    apply (cycle_rotate _ (z :: zs) (d :: ys ++ [v])) in Hc.
    simpl in Hc. by rewrite <-app_assoc in Hc.
Qed.
End general_rings.

(** ** Triples for the member functions *)

Section wp_ops.
Implicit Types (h : heap) (a b c x : addr) (l : list addr).

Lemma WF_prev_live h x p : WF h → pv h x = Some p → is_Some (nx h p).
Proof. intros [_ W2] Hp. eauto. Qed.

Lemma WF_next_live h x n : WF h → nx h x = Some n → is_Some (nx h n).
Proof.
  intros [W1 _] Hn. apply nx_is_Some, pv_is_Some. eauto.
Qed.

Lemma pv_live h a p : pv h a = Some p → is_Some (nx h a).
Proof. intros. apply nx_is_Some, pv_is_Some. eauto. Qed.

Lemma live_fields h x : is_Some (h !! x) → ∃ p n, pv h x = Some p ∧ nx h x = Some n.
Proof. intros [[p n] Hx]. exists p, n. by apply lookup_fields. Qed.

Lemma wp_unlink_WF x p n h (Q : unit → heap → Prop) :
  WF h → pv h x = Some p → nx h x = Some n →
  (∀ h', unlinked h x p n h' → WF h' → self_looped h' x → Q () h') →
  wp (unlink x) h Q.
Proof.
  intros HWF Hp Hn HQ. eapply wp_unlink; [done..| | |].
  - by eapply WF_prev_live.
  - by eapply WF_next_live.
  - intros h' Hu. apply HQ; [done| |].
    + by eapply WF_unlinked.
    + by eapply unlinked_self_looped.
Qed.

Lemma wp_clear d p n h (Q : unit → heap → Prop) :
  WF h → pv h d = Some p → nx h d = Some n →
  (∀ h', unlinked h d p n h' → WF h' → self_looped h' d → Q () h') →
  wp (clear d) h Q.
Proof. apply wp_unlink_WF. Qed.

Lemma wp_erase x p n h (Q : addr → heap → Prop) :
  WF h → pv h x = Some p → nx h x = Some n →
  (∀ h', unlinked h x p n h' → WF h' → self_looped h' x → Q n h') →
  wp (erase x) h Q.
Proof.
  intros HWF Hp Hn HQ. unfold erase.
  apply wp_bind. eapply wp_get_next; [done|].
  apply wp_bind. eapply wp_unlink_WF; [done..|].
  intros h' Hu HWF' Hs. apply wp_ret. by apply HQ.
Qed.

Lemma wp_insert pos v p n h (Q : addr → heap → Prop) :
  pos ≠ v → WF h → pv h v = Some p → nx h v = Some n → is_Some (h !! pos) →
  (∀ h1 bp h2, unlinked h v p n h1 → WF h1 → self_looped h1 v →
               pv h1 pos = Some bp → attached h1 bp v pos h2 → WF h2 →
               Q v h2) →
  wp (insert_ pos v) h Q.
Proof.
  intros Hne HWF Hp Hn Hpos HQ. unfold insert_.
  rewrite decide_False by done.
  apply wp_bind. eapply wp_unlink_WF; [done..|]. intros h1 Hu HWF1 Hs.
  assert (∃ bp, pv h1 pos = Some bp) as [bp Hbp].
  { destruct Hu as [_ Ep]. rewrite Ep.
    apply live_fields in Hpos as (q & ? & ? & ?).
    fields_cases; eauto. }
  assert (is_Some (nx h1 v)) as Hv1.
  { apply self_looped_fields in Hs as [_ ->]. eauto. }
  apply wp_bind. eapply wp_get_prev; [done|].
  apply wp_bind. apply wp_link; [by eapply WF_prev_live|done|].
  intros h2 [En2 Ep2].
  apply wp_bind. apply wp_link.
  { rewrite En2. fields_cases; eauto. }
  { rewrite En2. fields_cases; eauto.
    apply nx_is_Some, pv_is_Some. eauto. }
  intros h3 [En3 Ep3]. apply wp_ret.
  assert (attached h1 bp v pos h3) as Ha.
  { split; intros c.
    - rewrite En3, En2. by fields_cases.
    - rewrite Ep3, Ep2. by fields_cases. }
  apply (HQ h1 bp h3); try done. by eapply WF_attached.
Qed.

Lemma wp_splice pos first le last bp bf h (Q : unit → heap → Prop) :
  first ≠ le → WF h →
  pv h le = Some last → pv h pos = Some bp → pv h first = Some bf →
  (∀ h', spliced h bp first last pos bf le h' → Q () h') →
  wp (splice pos first le) h Q.
Proof.
  intros Hne HWF Hl Hp Hf HQ. unfold splice.
  rewrite decide_False by done.
  pose proof HWF as [W1 W2].
  apply wp_bind. eapply wp_get_prev; [done|].
  apply wp_bind. eapply wp_get_prev; [done|].
  apply wp_bind. eapply wp_get_prev; [done|].
  apply wp_bind. eapply wp_get_next; [by apply W2|].
  apply wp_bind. apply wp_link; [by eapply WF_prev_live|by eapply pv_live|].
  intros h1 [En1 Ep1].
  apply wp_bind. apply wp_link.
  { rewrite En1. fields_cases; eauto. }
  { rewrite En1. fields_cases; eauto using pv_live. }
  intros h2 [En2 Ep2]. apply wp_link.
  { rewrite En2, En1. fields_cases; eauto. }
  { rewrite En2, En1. fields_cases; eauto using pv_live. }
  intros h3 [En3 Ep3]. apply HQ. split; intros c.
  - by rewrite En3, En2, En1.
  - by rewrite Ep3, Ep2, Ep1.
Qed.

Lemma wp_move_assign this other p n h (Q : unit → heap → Prop) :
  this ≠ other → WF h → pv h this = Some p → nx h this = Some n →
  is_Some (h !! other) →
  (∀ h1, unlinked h this p n h1 → WF h1 → self_looped h1 this →
     (pv h1 other = Some other → Q () h1) ∧
     (∀ op on h2, pv h1 other = Some op → nx h1 other = Some on →
                  op ≠ other → relocated h1 this other op on h2 → WF h2 →
                  Q () h2)) →
  wp (move_assign this other) h Q.
Proof.
  intros Hne HWF Hp Hn Hother HQ. unfold move_assign.
  rewrite decide_False by done.
  apply wp_bind. eapply wp_unlink_WF; [done..|]. intros h1 Hu HWF1 Hs.
  destruct (HQ h1 Hu HWF1 Hs) as [HQ1 HQ2]. clear HQ.
  assert (∃ op on, pv h1 other = Some op ∧ nx h1 other = Some on)
    as (op & on & Hop & Hon).
  { destruct Hu as [En Ep]. rewrite En, Ep.
    apply live_fields in Hother as (q & r & ? & ?).
    fields_cases; eauto. }
  pose proof Hs as [Hsp Hsn]%self_looped_fields.
  apply wp_bind. eapply wp_is_linked; [done|].
  destruct (decide (op = other)) as [->|Hlinked].
  { rewrite bool_decide_false by naive_solver. apply wp_ret. by apply HQ1. }
  rewrite bool_decide_true by done.
  apply wp_bind. eapply wp_get_prev; [done|].
  apply wp_bind. apply wp_set_prev; [eauto|]. intros h2 En2 Ep2.
  apply wp_bind. apply wp_set_prev; [rewrite En2; eauto|]. intros h3 En3 Ep3.
  apply wp_bind. eapply wp_get_next; [by rewrite En3, En2|].
  apply wp_bind. apply wp_set_next; [rewrite En3, En2; eauto|]. intros h4 En4 Ep4.
  apply wp_bind. apply wp_set_next.
  { rewrite En4, En3, En2. fields_cases; eauto. }
  intros h5 En5 Ep5.
  apply wp_bind. eapply (wp_get_prev _ op).
  { rewrite Ep5, Ep4, Ep3. by rewrite decide_True. }
  assert (is_Some (nx h1 op)) by (by eapply WF_prev_live).
  apply wp_bind. apply wp_set_next.
  { rewrite En5, En4, En3, En2. fields_cases; eauto. }
  intros h6 En6 Ep6.
  apply wp_bind. eapply (wp_get_next _ on).
  { rewrite En6, En5. fields_cases; [|done].
    destruct HWF1 as [_ W2]. apply W2 in Hop. congruence. }
  assert (is_Some (nx h1 on)) by (by eapply WF_next_live).
  apply wp_set_prev.
  { rewrite En6, En5, En4, En3, En2. fields_cases; eauto. }
  intros h7 En7 Ep7.
  assert (relocated h1 this other op on h7) as Hr.
  { split; intros c.
    - rewrite En7, En6, En5, En4, En3, En2. by fields_cases.
    - rewrite Ep7, Ep6, Ep5, Ep4, Ep3, Ep2. by fields_cases. }
  apply (HQ2 op on h7); try done. by eapply WF_relocated.
Qed.
End wp_ops.

(** ** What the observers return on a well-formed list *)

Section observers.
Implicit Types (h : heap) (a b c x d : addr) (l xs : list addr).

Lemma traverse_chain h a l b fuel :
  chain h a l b → b ∉ l → length l ≤ fuel →
  traverse fuel (hd b l) b h = Some (l, h).
Proof.
  revert a fuel. induction l as [|y l IH]; intros a fuel Hc Hb Hlen; simpl in *.
  - destruct fuel; simpl; by rewrite decide_True.
  - destruct fuel as [|fuel]; [lia|]. simpl.
    apply not_elem_of_cons in Hb as [Hby Hb].
    rewrite decide_False by done.
    destruct Hc as [_ Hc].
    pose proof (chain_first _ _ _ _ Hc) as Hn.
    apply nx_Some in Hn as [p Hy].
    unfold mbind, M_bind, get_next. rewrite Hy. simpl.
    rewrite (IH y fuel) by (done || lia). done.
Qed.

Lemma distance_chain h a l b fuel :
  chain h a l b → b ∉ l → length l ≤ fuel →
  distance fuel (hd b l) b h = Some (length l, h).
Proof.
  revert a fuel. induction l as [|y l IH]; intros a fuel Hc Hb Hlen; simpl in *.
  - destruct fuel; simpl; by rewrite decide_True.
  - destruct fuel as [|fuel]; [lia|]. simpl.
    apply not_elem_of_cons in Hb as [Hby Hb].
    rewrite decide_False by done.
    destruct Hc as [_ Hc].
    pose proof (chain_first _ _ _ _ Hc) as Hn.
    apply nx_Some in Hn as [p Hy].
    unfold mbind, M_bind, get_next. rewrite Hy. simpl.
    rewrite (IH y fuel) by (done || lia). done.
Qed.

Lemma is_list_begin h d xs : is_list h d xs → begin_ d h = Some (hd d xs, h).
Proof.
  intros [_ Hc]. apply chain_first in Hc. apply nx_Some in Hc as [p Hd].
  unfold begin_, get_next. by rewrite Hd.
Qed.

Lemma is_list_back h d xs : is_list h d xs → back d h = Some (last_of d xs, h).
Proof.
  intros [_ Hc]. apply chain_last in Hc. apply pv_Some in Hc as [p Hd].
  unfold back, end_, get_prev, mbind, M_bind, mret, M_ret. by rewrite Hd.
Qed.

Lemma is_list_to_list h d xs fuel :
  is_list h d xs → length xs ≤ fuel → to_list fuel d h = Some (xs, h).
Proof.
  intros Hl Hlen. pose proof Hl as [[Hd _]%NoDup_cons Hc].
  unfold to_list, mbind, M_bind. rewrite (is_list_begin _ _ _ Hl).
  unfold end_, mret, M_ret. by eapply traverse_chain.
Qed.

Lemma is_list_size h d xs fuel :
  is_list h d xs → length xs ≤ fuel → size fuel d h = Some (length xs, h).
Proof.
  intros Hl Hlen. pose proof Hl as [[Hd _]%NoDup_cons Hc].
  unfold size, mbind, M_bind. rewrite (is_list_begin _ _ _ Hl).
  unfold end_, mret, M_ret. by eapply distance_chain.
Qed.

Lemma is_list_empty h d xs :
  is_list h d xs → empty d h = Some (bool_decide (xs = []), h).
Proof.
  intros [[Hd _]%NoDup_cons Hc]. apply chain_last in Hc.
  apply pv_Some in Hc as [n Hc].
  unfold empty, is_linked, get_prev, mbind, M_bind, mret, M_ret.
  rewrite Hc. simpl. do 2 f_equal.
  destruct xs as [|y xs]; simpl.
  - rewrite bool_decide_false by naive_solver. done.
  - rewrite bool_decide_true; [done|].
    intros Heq. apply Hd. rewrite <-Heq. apply last_of_elem.
Qed.


Lemma self_looped_is_linked h x :
  self_looped h x → is_linked x h = Some (false, h).
Proof.
  intros Hx. unfold is_linked, get_prev, mbind, M_bind, mret, M_ret.
  rewrite Hx. simpl. by rewrite bool_decide_false by naive_solver.
Qed.
End observers.

(** ** Ground heaps, decidability and frames *)

Section concrete.
Implicit Types (h : heap) (a b c x d : addr) (l xs : list addr).

Lemma WF_map_Forall h : map_Forall (WF_entry h) h → WF h.
Proof.
  intros HF. split; intros a b.
  - intros [p Ha]%nx_Some. by destruct (HF _ _ Ha) as [? _].
  - intros [n Ha]%pv_Some. by destruct (HF _ _ Ha) as [_ ?].
Qed.

#[global] Instance WF_entry_dec h a e : Decision (WF_entry h a e).
Proof. unfold WF_entry. apply _. Defined.

Lemma heap_abc_WF : WF heap_abc.
Proof. apply WF_map_Forall. compute_done. Qed.

Lemma fields_eq_lookup h h' c :
  nx h' c = nx h c → pv h' c = pv h c → h' !! c = h !! c.
Proof.
  unfold nx, pv. destruct (h' !! c) as [[p' n']|], (h !! c) as [[p n]|];
    simpl; intros; by simplify_eq.
Qed.

Lemma heap_abc_list : is_list heap_abc 1 [2; 3; 4]%positive.
Proof.
  split; [compute_done|]. vm_compute. by repeat split.
Qed.
#[global] Instance links_dec h a b : Decision (links h a b).
Proof. unfold links. apply _. Defined.

#[global] Instance chain_dec h a l b : Decision (chain h a l b).
Proof. revert a. induction l as [|y l IH]; intros a; simpl; apply _. Defined.

#[global] Instance cycle_dec h l : Decision (cycle h l).
Proof. destruct l; simpl; apply _. Defined.

#[global] Instance is_list_dec h d xs : Decision (is_list h d xs).
Proof. unfold is_list. apply _. Defined.

#[global] Instance self_looped_dec h a : Decision (self_looped h a).
Proof. unfold self_looped. apply _. Defined.

Lemma wp_erase_live x p n h (Q : addr → heap → Prop) :
  pv h x = Some p → nx h x = Some n →
  is_Some (nx h p) → is_Some (nx h n) →
  (∀ h', unlinked h x p n h' → Q n h') →
  wp (erase x) h Q.
Proof.
  intros Hp Hn Hlp Hln HQ. unfold erase.
  apply wp_bind. eapply wp_get_next; [done|].
  apply wp_bind. eapply wp_unlink; [done..|].
  intros h' Hu. apply wp_ret. by apply HQ.
Qed.

Lemma unlinked_frame h h' x p n c :
  unlinked h x p n h' → c ≠ x → c ≠ p → c ≠ n → h' !! c = h !! c.
Proof.
  intros [En Ep] ???. apply fields_eq_lookup; [rewrite En|rewrite Ep];
    by fields_cases.
Qed.
End concrete.

(** ** C8: [erase] *)

Lemma erase_list_member (h : heap) (d : addr) (xs : list addr) (x : addr) (ys : list addr) :
  is_list h d (xs ++ x :: ys) →
  ∃ h', erase x h = Some (hd d ys, h') ∧
        is_list h' d (xs ++ ys) ∧
        self_looped h' x ∧
        (∀ c, c ∉ d :: xs ++ x :: ys → h' !! c = h !! c) ∧
        (WF h → WF h').
Proof.
  intros Hl. pose proof Hl as [Hnd [H1 H2]%chain_app].
  pose proof (chain_last _ _ _ _ H1) as Hp.
  pose proof (chain_first _ _ _ _ H2) as Hn.
  assert (last_of d xs ∈ d :: xs) as Hpin by apply last_of_elem.
  assert (hd d ys ∈ ys ++ [d]) as Hnin by apply hd_elem.
  assert (wp (erase x) h (λ r h', r = hd d ys ∧ unlinked h x (last_of d xs) (hd d ys) h'))
    as (r & h' & Hrun & -> & Hu).
  { eapply wp_erase_live; [done..| | |done].
    - eapply (cycle_live _ _ _ Hl). set_solver.
    - eapply (cycle_live _ _ _ Hl). set_solver. }
  exists h'. split; [done|]. split.
  { unfold is_list in *. by eapply cycle_unlinked_in. }
  split; [by eapply unlinked_self_looped|]. split.
  - intros c Hc. eapply unlinked_frame; [done|set_solver..].
  - intros HWF. by eapply WF_unlinked.
Qed.

(** C8.  If [x] is a member of the list [d] (so the iterator is not
    [end()]), [erase x] succeeds and returns the node that followed [x], or
    the sentinel when [x] was last; afterwards [x] is self-looped
    ([is_linked] is false), the list holds its former members without [x]
    in their former order (as [to_list] and [size] observe), every node
    outside the list is untouched, and the heap invariant is kept. *)
Theorem erase_member (h : heap) (d : addr) (xs : list addr) (x : addr) (ys : list addr) :
  is_list h d (xs ++ x :: ys) →
  ∃ h', erase x h = Some (hd d ys, h') ∧
        is_list h' d (xs ++ ys) ∧
        is_linked x h' = Some (false, h') ∧
        (∀ fuel, length xs + length ys ≤ fuel →
           to_list fuel d h' = Some (xs ++ ys, h') ∧
           size fuel d h' = Some (length xs + length ys, h')) ∧
        (∀ c, c ∉ d :: xs ++ x :: ys → h' !! c = h !! c) ∧
        (WF h → WF h').
Proof.
  intros Hl.
  destruct (erase_list_member h d xs x ys Hl) as (h' & Hrun & Hl' & Hs & Hfr & HWF).
  exists h'. split; [done|]. split; [done|].
  split; [by apply self_looped_is_linked|]. split; [|done].
  intros fuel Hlen. split.
  - apply is_list_to_list; [done|]. rewrite length_app. lia.
  - rewrite <-length_app. apply is_list_size; [done|]. rewrite length_app. lia.
Qed.

(** The example of the specification: erasing [b] from [[a; b; c]] leaves
    [[a; c]], of size 2, and returns the position of [c]. *)
Lemma erase_member_witness :
  is_list heap_abc 1 [2; 3; 4]%positive ∧
  ∃ h', erase 3%positive heap_abc = Some (4%positive, h') ∧
        is_list h' 1 [2; 4]%positive ∧
        is_linked 3%positive h' = Some (false, h') ∧
        (∀ fuel, 2 ≤ fuel →
           to_list fuel 1%positive h' = Some ([2; 4]%positive, h') ∧
           size fuel 1%positive h' = Some (2, h')) ∧
        (∀ c, c ∉ [1; 2; 3; 4]%positive → h' !! c = heap_abc !! c) ∧
        (WF heap_abc → WF h').
Proof.
  assert (is_list heap_abc 1 [2; 3; 4]%positive) as Hl.
  { split; [compute_done|]. vm_compute. by repeat split. }
  split; [exact Hl|].
  exact (erase_member heap_abc 1 [2] 3 [4] Hl)%positive.
Defined.

(** ** C9 and C10: [unlink] on a self-looped node *)

Section unlink_twice.
Implicit Types (h : heap) (a b c x d : addr) (l xs : list addr).

Lemma unlink_self_looped h x : self_looped h x → unlink x h = Some ((), h).
Proof.
  intros Hs. pose proof Hs as [Hp Hn]%self_looped_fields.
  assert (wp (unlink x) h (λ _ h', h' = h)) as ([] & h' & Hrun & ->); [|done].
  eapply wp_unlink; [done..|eauto|eauto|].
  intros h' [En Ep]. apply heap_ext; intros c.
  - rewrite En. by fields_cases.
  - rewrite Ep. by fields_cases.
Qed.

Lemma unlink_Some_inv h x r h' :
  unlink x h = Some (r, h') →
  ∃ p n, pv h x = Some p ∧ nx h x = Some n ∧
         is_Some (nx h p) ∧ is_Some (nx h n).
Proof.
  unfold unlink, link, mbind, M_bind, get_prev, get_next, set_next, set_prev.
  intros Hrun.
  destruct (h !! x) as [[p n]|] eqn:Hx; rewrite ?Hx in Hrun;
    simpl in Hrun; [|done].
  destruct (h !! p) as [ep|] eqn:Hp; rewrite ?Hp in Hrun;
    simpl in Hrun; [|done].
  destruct (<[p:=_]> h !! n) as [en|] eqn:Hn; rewrite ?Hn in Hrun;
    simpl in Hrun; [|done].
  exists p, n. apply lookup_fields in Hx as [? ?].
  rewrite !nx_is_Some, Hp. repeat split; eauto.
  rewrite lookup_insert in Hn. case_decide; simplify_eq; eauto.
Qed.

Lemma unlink_result_self_looped h x r h' :
  unlink x h = Some (r, h') → self_looped h' x.
Proof.
  intros Hrun. pose proof Hrun as (p & n & Hp & Hn & Hlp & Hln)%unlink_Some_inv.
  eapply (wp_run _ _ (λ _ h', self_looped h' x)); [done|].
  eapply wp_unlink; [done..|]. intros h1 Hu. by eapply unlinked_self_looped.
Qed.

Lemma unlink_total h x : WF h → is_Some (h !! x) → is_Some (unlink x h).
Proof.
  intros HWF (p & n & Hp & Hn)%live_fields.
  assert (wp (unlink x) h (λ _ _, True)) as (r & h' & -> & _); [|eauto].
  eapply wp_unlink_WF; done.
Qed.
End unlink_twice.

Lemma is_linked_prev h x p :
  pv h x = Some p → is_linked x h = Some (bool_decide (p ≠ x), h).
Proof.
  intros [n Hx]%pv_Some.
  unfold is_linked, get_prev, mbind, M_bind, mret, M_ret. by rewrite Hx.
Qed.

Lemma is_linked_dead h x : h !! x = None → is_linked x h = None.
Proof.
  intros Hx. unfold is_linked, get_prev, mbind, M_bind. by rewrite Hx.
Qed.

(** C9.  [unlink] is idempotent.  On a self-looped node it leaves the whole
    heap as it was.  Whenever [unlink x] returns, [x] is self-looped in the
    resulting heap, [is_linked] answers false there, and a second [unlink x]
    changes nothing: two calls equal one.  On a heap that satisfies the
    invariant [unlink] returns for every live node.

    [is_linked] answers false exactly in that reset state.  On any live
    node it answers [prev != this] and writes nothing; on a dead address it
    does not return.  On a heap that satisfies the invariant its answer on
    a live node is false iff the node is self-looped, iff [unlink] would
    change nothing; where it answers true, [unlink] does change the heap
    and [is_linked] answers false afterwards. *)
Theorem unlink_idempotent (h : heap) (x : addr) :
  (self_looped h x → unlink x h = Some ((), h)) ∧
  (∀ h', unlink x h = Some ((), h') →
     self_looped h' x ∧
     is_linked x h' = Some (false, h') ∧
     unlink x h' = Some ((), h') ∧
     (unlink x ≫= λ _, unlink x) h = unlink x h) ∧
  (WF h → is_Some (h !! x) → is_Some (unlink x h)) ∧
  (∀ p, pv h x = Some p →
     is_linked x h = Some (bool_decide (p ≠ x), h)) ∧
  (h !! x = None → is_linked x h = None) ∧
  (WF h → is_Some (h !! x) →
     ∃ ans : bool, is_linked x h = Some (ans, h) ∧
       (ans = false ↔ self_looped h x) ∧
       (ans = false ↔ unlink x h = Some ((), h)) ∧
       (ans = true →
          ∃ h', unlink x h = Some ((), h') ∧ h' ≠ h ∧
                is_linked x h' = Some (false, h'))).
Proof.
  split; [apply unlink_self_looped|]. split; [|split; [apply unlink_total|]].
  - intros h' Hrun. pose proof (unlink_result_self_looped _ _ _ _ Hrun) as Hs.
    split; [done|]. split; [by apply self_looped_is_linked|].
    pose proof (unlink_self_looped _ _ Hs) as Hagain. split; [done|].
    unfold mbind, M_bind. by rewrite Hrun.
  - split; [apply is_linked_prev|]. split; [apply is_linked_dead|].
    intros HWF Hlive. pose proof Hlive as (p & n & Hp & Hn)%live_fields.
    assert (bool_decide (p ≠ x) = false ↔ self_looped h x) as Hiff.
    { rewrite bool_decide_eq_false. split.
      - intros Heq. destruct (decide (p = x)) as [->|]; [|by destruct Heq].
        apply self_looped_fields. split; [done|]. by apply HWF.
      - intros [Hp' _]%self_looped_fields Hne. congruence. }
    exists (bool_decide (p ≠ x)). split; [by apply is_linked_prev|].
    split; [done|]. split.
    + rewrite Hiff. split; [apply unlink_self_looped|].
      apply unlink_result_self_looped.
    + intros Hb. destruct (unlink_total h x HWF Hlive) as [[[] h'] Hrun].
      exists h'. split; [done|].
      pose proof (unlink_result_self_looped _ _ _ _ Hrun) as Hs.
      split; [|by apply self_looped_is_linked].
      intros ->. apply Hiff in Hs. congruence.
Qed.

(** C10.  On an empty list [pop_front] and [pop_back] both return and leave
    the heap exactly as it was: the list is still empty, its sentinel still
    self-looped, and no other node is written. *)
Theorem pop_on_empty_list (h : heap) (d : addr) :
  is_list h d [] →
  pop_front d h = Some ((), h) ∧
  pop_back d h = Some ((), h) ∧
  erase d h = Some (d, h) ∧
  self_looped h d.
Proof.
  intros Hs%is_list_nil.
  pose proof (unlink_self_looped _ _ Hs) as Hu.
  assert (erase d h = Some (d, h)) as He.
  { unfold erase, mbind, M_bind, get_next. rewrite Hs. simpl. by rewrite Hu. }
  repeat split; [| |done..].
  - unfold pop_front, begin_, mbind, M_bind, get_next. rewrite Hs. simpl.
    by rewrite He.
  - unfold pop_back, end_, mbind, M_bind, mret, M_ret, get_prev.
    rewrite Hs. simpl. by rewrite He.
Qed.

Lemma pop_on_empty_list_witness :
  is_list heap_empty_list 1 [] ∧
  pop_front 1%positive heap_empty_list = Some ((), heap_empty_list) ∧
  pop_back 1%positive heap_empty_list = Some ((), heap_empty_list) ∧
  erase 1%positive heap_empty_list = Some (1%positive, heap_empty_list) ∧
  self_looped heap_empty_list 1.
Proof.
  assert (is_list heap_empty_list 1 []) as Hl.
  { split; [compute_done|]. vm_compute. by repeat split. }
  split; [exact Hl|].
  exact (pop_on_empty_list heap_empty_list 1 Hl).
Defined.

(** ** C7: copy construction and copy assignment *)

Section copies.
Implicit Types (h : heap) (a b c x d : addr) (l xs : list addr).

Lemma is_list_unlinked h h' d xs x p n :
  WF h → is_list h d xs → d ≠ x →
  pv h x = Some p → nx h x = Some n → unlinked h x p n h' →
  is_list h' d (without x xs).
Proof.
  unfold is_list. intros HWF Hl Hd Hp Hn Hu.
  rewrite <-(without_cons_ne x d xs) by done.
  eapply cycle_unlinked; [done..|].
  by rewrite without_cons_ne.
Qed.

Lemma construct_fresh h this :
  h !! this = None →
  ∃ h', construct this h = Some ((), h') ∧
        self_looped h' this ∧
        (∀ c, c ≠ this → h' !! c = h !! c) ∧
        (WF h → WF h') ∧
        (∀ l, cycle h l → cycle h' l).
Proof.
  intros Hfresh.
  assert (nx h this = None) as Hnone by (unfold nx; by rewrite Hfresh).
  assert (wp (construct this) h (λ _ h',
    (∀ c, nx h' c = if decide (c = this) then Some this else nx h c) ∧
    (∀ c, pv h' c = if decide (c = this) then Some this else pv h c)))
    as ([] & h' & Hrun & En & Ep).
  { apply wp_construct. auto. }
  exists h'. split; [done|]. split; [|split; [|split]].
  - apply self_looped_fields. rewrite En, Ep. by rewrite !decide_True.
  - intros c Hc. apply fields_eq_lookup; [rewrite En|rewrite Ep]; by fields_cases.
  - intros HWF. by eapply WF_constructed.
  - intros l Hc. eapply cycle_frame; [| |done]; intros c Hin.
    + rewrite En. fields_cases; [|done].
      destruct (cycle_live _ _ _ Hc Hin). congruence.
    + rewrite Ep. fields_cases; [|done].
      destruct (cycle_live _ _ _ Hc Hin). congruence.
Qed.
End copies.

(** C7.  Copy construction into fresh storage yields a self-looped node
    ([is_linked] false), whatever the source is, and changes no other node:
    every ring, so the source's membership, is as before.  Copy assignment
    of a node to itself leaves the heap as it was.  Copy assignment from
    another node unlinks the destination: it ends self-looped, every ring
    and every list keeps its other nodes in their order (the source stays a
    member of the list it was in), and only the destination and its two
    former neighbours are written. *)
Theorem copy_semantics (h : heap) (this other : addr) :
  (h !! this = None →
   ∃ h', copy_construct this other h = Some ((), h') ∧
         self_looped h' this ∧
         is_linked this h' = Some (false, h') ∧
         (∀ c, c ≠ this → h' !! c = h !! c) ∧
         (WF h → WF h') ∧
         (∀ l, cycle h l → cycle h' l)) ∧
  copy_assign this this h = Some ((), h) ∧
  (WF h → this ≠ other → is_Some (h !! this) →
   ∃ h', copy_assign this other h = Some ((), h') ∧
         self_looped h' this ∧
         is_linked this h' = Some (false, h') ∧
         WF h' ∧
         (∀ l, cycle h l → without this l ≠ [] → cycle h' (without this l)) ∧
         (∀ d xs, is_list h d xs → d ≠ this →
            is_list h' d (without this xs) ∧
            (other ∈ xs → other ∈ without this xs)) ∧
         (∀ c, c ≠ this → pv h this ≠ Some c → nx h this ≠ Some c →
            h' !! c = h !! c)).
Proof.
  split; [|split].
  - intros Hfresh. unfold copy_construct.
    destruct (construct_fresh h this Hfresh) as (h' & Hrun & Hs & Hfr & HWF & Hc).
    exists h'. split; [done|]. split; [done|].
    split; [by apply self_looped_is_linked|]. auto.
  - unfold copy_assign. by rewrite decide_True.
  - intros HWF Hne (p & n & Hp & Hn)%live_fields.
    unfold copy_assign. rewrite decide_False by done.
    assert (wp (unlink this) h (λ _ h',
      unlinked h this p n h' ∧ WF h' ∧ self_looped h' this))
      as ([] & h' & Hrun & Hu & HWF' & Hs).
    { apply (wp_unlink_WF this p n); auto. }
    exists h'. split; [done|]. split; [done|].
    split; [by apply self_looped_is_linked|]. split; [done|].
    split; [|split].
    + intros l Hc Hl. by apply (cycle_unlinked h h' l this p n).
    + intros d xs Hl Hd. split; [by apply (is_list_unlinked h h' d xs this p n)|].
      intros Hin. by apply without_elem.
    + intros c Hc Hcp Hcn. eapply unlinked_frame; [done..| |]; congruence.
Qed.

(** ** C6: move construction and move assignment *)

Section moves.
Implicit Types (h : heap) (a b c x d : addr) (l xs : list addr).

Lemma cycle_self_looped h l x :
  cycle h l → x ∈ l → self_looped h x → l = [x].
Proof.
  intros Hc Hin Hs%cycle_singleton.
  pose proof (cycle_share _ _ _ _ Hc Hs Hin) as Hall.
  pose proof (cycle_NoDup _ _ Hc) as Hnd.
  destruct l as [|y l]; [by apply elem_of_nil in Hin|].
  assert (y = x) as -> by (apply list_elem_of_singleton, Hall; set_solver).
  destruct l as [|z l]; [done|]. exfalso.
  assert (z = x) as -> by (apply list_elem_of_singleton, Hall; set_solver).
  nodup_inv. set_solver.
Qed.

Lemma WF_self_looped h x : WF h → pv h x = Some x → self_looped h x.
Proof. intros [_ W2] Hp. apply self_looped_fields. split; [done|]. by apply W2. Qed.

Lemma move_assign_rings h this other :
  WF h → this ≠ other → is_Some (h !! this) → is_Some (h !! other) →
  ∃ h', move_assign this other h = Some ((), h') ∧
        WF h' ∧
        self_looped h' other ∧
        (∀ l, cycle h l → other ∈ l →
           cycle h' (renamed other this (without this l))) ∧
        (∀ l, cycle h l → other ∉ l → without this l ≠ [] →
           cycle h' (without this l)) ∧
        (∀ op on, pv h other = Some op → nx h other = Some on →
           op ≠ other → op ≠ this → on ≠ this →
           nx h' op = Some this ∧ pv h' on = Some this ∧
           pv h' this = Some op ∧ nx h' this = Some on).
Proof.
  intros HWF Hne (p & n & Hp & Hn)%live_fields Hother.
  set (post := λ h', WF h' ∧ self_looped h' other ∧
        (∀ l, cycle h l → other ∈ l →
           cycle h' (renamed other this (without this l))) ∧
        (∀ l, cycle h l → other ∉ l → without this l ≠ [] →
           cycle h' (without this l)) ∧
        (∀ op on, pv h other = Some op → nx h other = Some on →
           op ≠ other → op ≠ this → on ≠ this →
           nx h' op = Some this ∧ pv h' on = Some this ∧
           pv h' this = Some op ∧ nx h' this = Some on)).
  assert (wp (move_assign this other) h (λ _ h', post h'))
    as ([] & h' & Hrun & Hpost); [|by exists h'].
  apply (wp_move_assign this other p n); [done..|].
  intros h1 Hu HWF1 Hs1.
  assert (∀ l, cycle h l → without this l ≠ [] → cycle h1 (without this l))
    as Hstep1.
  { intros l Hc Hl. by apply (cycle_unlinked h h1 l this p n). }
  assert (∀ l, other ∈ l → other ∈ without this l) as Hin1.
  { intros l Hin. by apply without_elem. }
  assert (∀ l, other ∈ l → without this l ≠ []) as Hne1.
  { intros l Hin Heq. apply Hin1 in Hin. rewrite Heq in Hin.
    by apply elem_of_nil in Hin. }
  assert (∀ l, this ∉ without this l) as Hthis1.
  { intros l [? _]%without_elem. done. }
  split.
  - (* the source is not linked once the destination is out of the way *)
    intros Hop. pose proof (WF_self_looped _ _ HWF1 Hop) as Hso.
    split; [done|]. split; [done|]. split; [|split].
    + intros l Hc Hin.
      rewrite (cycle_self_looped h1 (without this l) other); auto.
      unfold renamed. simpl. rewrite decide_True by done.
      by apply cycle_singleton.
    + auto.
    + intros op on Hop' Hon' ? ? ?. exfalso.
      destruct Hu as [En Ep]. rewrite Ep in Hop.
      destruct HWF as [W1 _]. apply W1 in Hn.
      fields_cases; congruence.
  - intros op on h2 Hop Hon Hlinked Hr HWF2.
    assert (on ≠ other) as Hon_ne.
    { intros ->. destruct HWF1 as [W1 _]. apply W1 in Hon. congruence. }
    split; [done|]. split; [|split; [|split]].
    + destruct Hr as [En Ep]. apply self_looped_fields.
      split; [rewrite Ep|rewrite En]; by fields_cases.
    + intros l Hc Hin.
      apply (cycle_relocated_gen h1 h2 (without this l) this other op on); auto.
      intros Heq. apply Hlinked.
      assert (self_looped h1 other) as [? _]%self_looped_fields.
      { apply cycle_singleton. rewrite <-Heq. auto. }
      congruence.
    + intros l Hc Hout Hl.
      apply (cycle_relocated_out h1 h2 (without this l) this other op on); auto.
      intros [? ?]%without_elem. done.
    + intros op' on' Hop' Hon' ? ? ?.
      assert (op' = op ∧ on' = on) as [-> ->].
      { destruct Hu as [En Ep]. rewrite En in Hon. rewrite Ep in Hop.
        destruct HWF as [W1 W2]. pose proof (W1 _ _ Hn). pose proof (W2 _ _ Hp).
        fields_cases; naive_solver. }
      destruct Hr as [En Ep]. rewrite !En, !Ep.
      repeat split; by fields_cases.
Qed.
End moves.

(** C6.  Move assignment of a node to itself leaves the heap as it was.
    For distinct live nodes, move assignment first takes the destination
    [this] out of its ring and then puts it where the source [other]
    stands: the ring of the source becomes the same ring with [this] in the
    place of [other] (and without the old occurrence of [this], if it was
    on that ring), the source ends self-looped, every other ring only
    loses [this]; when neither neighbour of a linked source is the
    destination, those neighbours point to the destination afterwards; a
    source that was unlinked leaves the destination unlinked.  Move
    construction into fresh storage does the same with a destination that
    starts self-looped. *)
Theorem move_semantics (h : heap) (this other : addr) :
  move_assign this this h = Some ((), h) ∧
  (WF h → this ≠ other → is_Some (h !! this) → is_Some (h !! other) →
   ∃ h', move_assign this other h = Some ((), h') ∧
         WF h' ∧
         self_looped h' other ∧
         (∀ l, cycle h l → other ∈ l →
            cycle h' (renamed other this (without this l))) ∧
         (∀ l, cycle h l → other ∉ l → without this l ≠ [] →
            cycle h' (without this l)) ∧
         (∀ op on, pv h other = Some op → nx h other = Some on →
            op ≠ other → op ≠ this → on ≠ this →
            nx h' op = Some this ∧ pv h' on = Some this ∧
            pv h' this = Some op ∧ nx h' this = Some on) ∧
         (self_looped h other → self_looped h' this)) ∧
  (WF h → h !! this = None → is_Some (h !! other) →
   ∃ h', move_construct this other h = Some ((), h') ∧
         WF h' ∧
         self_looped h' other ∧
         (∀ l, cycle h l → cycle h' (renamed other this l)) ∧
         (self_looped h other → self_looped h' this)).
Proof.
  split; [|split].
  - unfold move_assign. by rewrite decide_True.
  - intros HWF Hne Hthis Hother.
    destruct (move_assign_rings h this other) as (h' & Hrun & HWF' & Hso & Hin & Hout & Hnb);
      [done..|].
    exists h'. repeat (split; [done|]).
    intros Hs%cycle_singleton. apply cycle_singleton.
    specialize (Hin [other] Hs). rewrite without_notin in Hin by set_solver.
    unfold renamed in Hin. simpl in Hin. rewrite decide_True in Hin by done.
    apply Hin. set_solver.
  - intros HWF Hfresh Hother.
    assert (this ≠ other) as Hne.
    { intros ->. rewrite Hfresh in Hother. by destruct Hother. }
    destruct (construct_fresh h this Hfresh) as (h0 & Hrun0 & Hs0 & Hfr0 & HWF0 & Hc0).
    destruct (move_assign_rings h0 this other) as (h' & Hrun & HWF' & Hso & Hin & Hout & _).
    { auto. } { done. } { rewrite Hs0. eauto. } { by rewrite Hfr0. }
    exists h'. split.
    { unfold move_construct, mbind, M_bind. by rewrite Hrun0. }
    split; [done|]. split; [done|].
    assert (∀ l, cycle h l → cycle h' (renamed other this l)) as Hrings.
    { intros l Hc.
      assert (this ∉ l) as Hnotin.
      { intros Hin'. apply (cycle_live _ _ _ Hc), nx_is_Some in Hin'.
        rewrite Hfresh in Hin'. by destruct Hin'. }
      destruct (decide (other ∈ l)) as [Hmem|Hmem].
      - rewrite <-(without_notin this l) by done. auto.
      - rewrite renamed_notin by done.
        rewrite <-(without_notin this l) by done.
        apply Hout; auto. rewrite without_notin by done.
        intros ->. done. }
    split; [done|].
    intros Hs%cycle_singleton. apply cycle_singleton.
    apply Hrings in Hs. unfold renamed in Hs. simpl in Hs.
    by rewrite decide_True in Hs.
Qed.

(** ** C5: [insert] *)

Section insertion.
Implicit Types (h : heap) (a b c x d : addr) (l xs : list addr).

Lemma hd_without d v zs : hd d zs ≠ v → hd d (without v zs) = hd d zs.
Proof.
  destruct zs as [|z zs]; simpl; [done|]. intros Hne.
  by rewrite without_cons_ne.
Qed.

Lemma hd_elem_cons d zs ys : hd d zs ∈ d :: ys ++ zs.
Proof. destruct zs; simpl; set_solver. Qed.

Lemma insert_rings h pos v d ys zs :
  WF h → pos ≠ v → is_Some (h !! v) →
  is_list h d (ys ++ zs) → pos = hd d zs → v ≠ d →
  ∃ h', insert_ pos v h = Some (v, h') ∧
        WF h' ∧
        is_list h' d (without v ys ++ v :: without v zs) ∧
        (∀ l, cycle h l → pos ∉ l → without v l ≠ [] → cycle h' (without v l)).
Proof.
  intros HWF Hne (p & n & Hp & Hn)%live_fields Hl Hpos Hvd.
  set (post := λ h', WF h' ∧
        is_list h' d (without v ys ++ v :: without v zs) ∧
        (∀ l, cycle h l → pos ∉ l → without v l ≠ [] → cycle h' (without v l))).
  assert (wp (insert_ pos v) h (λ r h', r = v ∧ post h'))
    as (r & h' & Hrun & -> & Hpost); [|by exists h'].
  apply (wp_insert pos v p n); [done..| |].
  { apply nx_is_Some. apply (cycle_live _ _ _ Hl). subst pos. apply hd_elem_cons. }
  intros h1 bp h2 Hu HWF1 Hs1 Hbp Ha HWF2. split; [done|]. split; [done|].
  split.
  - assert (is_list h1 d (without v ys ++ without v zs)) as Hl1.
    { rewrite <-without_app. by apply (is_list_unlinked h h1 d _ v p n). }
    assert (hd d (without v zs) = pos) as Hhd.
    { subst pos. apply hd_without. congruence. }
    apply (is_list_attached h1 h2 d _ _ v bp); [done| |by rewrite Hhd..].
    rewrite <-without_app. intros [?|[? _]%without_elem]%elem_of_cons; done.
  - intros l Hc Hout Hl'.
    apply (cycle_attached_out h1 h2 _ pos v bp); [done| | | |done..].
    + by apply (cycle_unlinked h h1 l v p n).
    + intros [? _]%without_elem. done.
    + intros [_ ?]%without_elem. done.
Qed.
End insertion.

(** C5.  [insert pos pos] returns [pos] and leaves the heap as it was.
    Otherwise, with [pos] a position of the list [d] (the first node of
    [zs], or the sentinel when [zs] is empty) and [v] any other live node,
    [insert pos v] returns [v] and leaves [v] immediately before [pos]:
    the list is its former sequence without [v], with [v] put before
    [pos].  Every other ring only loses [v]; in particular, a list [d1]
    that held [v] holds its other members in their former order, one
    fewer, and [v] is a member of [d] only. *)
Theorem insert_semantics (h : heap) (pos v d : addr) (ys zs : list addr) :
  insert_ pos pos h = Some (pos, h) ∧
  (WF h → pos ≠ v → is_Some (h !! v) →
   is_list h d (ys ++ zs) → pos = hd d zs → v ≠ d →
   ∃ h', insert_ pos v h = Some (v, h') ∧
         WF h' ∧
         is_list h' d (without v ys ++ v :: without v zs) ∧
         (v ∉ ys ++ zs → is_list h' d (ys ++ v :: zs)) ∧
         (∀ l, cycle h l → pos ∉ l → without v l ≠ [] → cycle h' (without v l)) ∧
         (∀ d1 xs1 xs2, is_list h d1 (xs1 ++ v :: xs2) → d1 ∉ d :: ys ++ zs →
            is_list h' d1 (xs1 ++ xs2) ∧
            is_list h' d (ys ++ v :: zs) ∧
            (v ∉ xs1 ++ xs2) ∧
            (∀ fuel, length xs1 + length xs2 ≤ fuel →
               to_list fuel d1 h' = Some (xs1 ++ xs2, h') ∧
               size fuel d1 h' = Some (length xs1 + length xs2, h')))).
Proof.
  split.
  { unfold insert_. by rewrite decide_True. }
  intros HWF Hne Hv Hl Hpos Hvd.
  destruct (insert_rings h pos v d ys zs) as (h' & Hrun & HWF' & Hl' & Hrings);
    [done..|].
  exists h'. split; [done|]. split; [done|]. split; [done|].
  assert (v ∉ ys ++ zs → is_list h' d (ys ++ v :: zs)) as Hfresh.
  { intros Hnotin. rewrite !without_notin in Hl' by set_solver. done. }
  split; [done|]. split; [done|].
  intros d1 xs1 xs2 Hl1 Hd1.
  assert (∀ c, c ∈ d1 :: xs1 ++ v :: xs2 → c ∉ d :: ys ++ zs) as Hdisj.
  { intros c Hc Hc'. apply Hd1.
    apply (cycle_share h (d1 :: xs1 ++ v :: xs2) _ c); [done..|set_solver]. }
  pose proof (cycle_NoDup _ _ Hl1) as Hnd.
  assert (is_list h' d1 (xs1 ++ xs2)) as Hl1'.
  { unfold is_list.
    assert (d1 ≠ v) by (nodup_inv; set_solver).
    change (d1 :: xs1 ++ xs2) with ((d1 :: xs1) ++ xs2).
    rewrite <-(without_split v (d1 :: xs1) xs2) by done.
    apply Hrings; [done| |].
    - intros Hin. apply (Hdisj pos Hin). subst pos. apply hd_elem_cons.
    - rewrite without_split by done. done. }
  split; [done|]. split.
  { apply Hfresh. intros Hin. apply (Hdisj v); set_solver. }
  split; [nodup_inv; set_solver|].
  intros fuel Hfuel. split.
  - apply is_list_to_list; [done|]. rewrite length_app. lia.
  - rewrite <-length_app. apply is_list_size; [done|]. rewrite length_app. lia.
Qed.

(** Moving [3] from the list [1] ([2; 3; 4]) to the end of the list [5]
    ([6]): the former keeps [2; 4], the latter becomes [6; 3]. *)
Lemma insert_semantics_witness :
  WF heap_two_lists ∧
  is_list heap_two_lists 5 [6]%positive ∧
  is_list heap_two_lists 1 [2; 3; 4]%positive ∧
  ∃ h', insert_ 5%positive 3%positive heap_two_lists = Some (3%positive, h') ∧
        is_list h' 1 [2; 4]%positive ∧
        is_list h' 5 [6; 3]%positive ∧
        size 2 1%positive h' = Some (2, h').
Proof.
  assert (WF heap_two_lists) as HWF by (apply WF_map_Forall; compute_done).
  assert (is_list heap_two_lists 5 [6]%positive) as H5.
  { split; [compute_done|]. vm_compute. by repeat split. }
  assert (is_list heap_two_lists 1 [2; 3; 4]%positive) as H1.
  { split; [compute_done|]. vm_compute. by repeat split. }
  split; [exact HWF|]. split; [exact H5|]. split; [exact H1|].
  destruct (proj2 (insert_semantics heap_two_lists 5 3 5 [6%positive] []))
    as (h' & Hrun & _ & _ & _ & _ & Hother);
    [exact HWF|done|by vm_compute; eauto|exact H5|done|done|].
  destruct (Hother 1%positive [2]%positive [4]%positive H1) as (Ha & Hb & _ & Hsz).
  { compute_done. }
  exists h'. split; [exact Hrun|]. split; [exact Ha|]. split; [exact Hb|].
  apply (Hsz 2). simpl. lia.
Defined.

(** ** C4: [clear] *)

Section clearing.
Implicit Types (h : heap) (a b c x d : addr) (l xs : list addr).

Lemma cycle_prev_self h l x :
  cycle h l → x ∈ l → pv h x = Some x → l = [x].
Proof.
  intros Hc Hin Hp. apply list_elem_of_split in Hin as (l1 & l2 & ->).
  pose proof (cycle_NoDup _ _ Hc) as Hnd.
  apply (cycle_rotate _ l1 (x :: l2)) in Hc. simpl in Hc.
  destruct Hc as [Hnd' Hc]. apply chain_last in Hc. rewrite Hp in Hc.
  injection Hc as Hc.
  destruct (l2 ++ l1) as [|y r] eqn:Heq.
  - apply app_eq_nil in Heq as [-> ->]. done.
  - exfalso. pose proof (last_of_cons_elem x y r) as Hl. rewrite <-Hc in Hl.
    apply NoDup_cons in Hnd' as [? _]. done.
Qed.

Lemma cycle_is_linked h l x :
  cycle h l → x ∈ l →
  is_linked x h = Some (bool_decide (1 < length l), h).
Proof.
  intros Hc Hin.
  destruct (cycle_live _ _ _ Hc Hin) as [n Hn].
  apply nx_Some in Hn as [p Hx].
  unfold is_linked, get_prev, mbind, M_bind, mret, M_ret. rewrite Hx. simpl.
  do 2 f_equal. destruct (decide (p = x)) as [->|Hne].
  - rewrite (cycle_prev_self h l x); [|done..|apply pv_Some; eauto].
    rewrite bool_decide_false by naive_solver.
    rewrite bool_decide_false; [done|simpl; lia].
  - rewrite bool_decide_true by done. rewrite bool_decide_true; [done|].
    destruct l as [|y [|z l]]; simpl; [done| |lia].
    apply list_elem_of_singleton in Hin as ->.
    destruct Hc as [_ [_ Hp]]. apply pv_Some in Hp as [? Hp]. congruence.
Qed.

Lemma clear_rings h d xs :
  WF h → is_list h d xs → xs ≠ [] →
  ∃ h', clear d h = Some ((), h') ∧
        WF h' ∧ self_looped h' d ∧ cycle h' xs ∧
        (∀ c, c ∉ d :: xs → h' !! c = h !! c).
Proof.
  intros HWF Hl Hne.
  assert (is_Some (h !! d)) as (p & n & Hp & Hn)%live_fields.
  { apply nx_is_Some, (cycle_live _ _ _ Hl). set_solver. }
  assert (wp (clear d) h (λ _ h', unlinked h d p n h' ∧ WF h' ∧ self_looped h' d))
    as ([] & h' & Hrun & Hu & HWF' & Hs).
  { apply (wp_clear d p n); auto. }
  exists h'. split; [done|]. split; [done|]. split; [done|].
  pose proof (cycle_NoDup _ _ Hl) as Hnd.
  assert (without d (d :: xs) = xs) as Hw.
  { rewrite without_cons_eq. apply without_notin.
    by apply NoDup_cons in Hnd as [? _]. }
  split.
  - rewrite <-Hw. apply (cycle_unlinked h h' _ d p n); try done.
    by rewrite Hw.
  - intros c Hc. apply (unlinked_frame h h' d p n); [done|set_solver| |].
    + intros ->. apply Hc. apply (cycle_pv_elem h _ d); [done|set_solver|done].
    + intros ->. apply Hc. apply (cycle_nx_elem h _ d); [done|set_solver|done].
Qed.
End clearing.

(** C4, as the specification states it, fails on a list with one member:
    after [clear] that member is self-looped and [is_linked] answers
    false. *)
Lemma clear_singleton_unlinks_member :
  is_list heap_singleton 1 [2]%positive ∧
  ∃ h', clear 1%positive heap_singleton = Some ((), h') ∧
        is_linked 2%positive h' = Some (false, h').
Proof.
  split.
  - split; [compute_done|]. vm_compute. by repeat split.
  - eexists. split; [by vm_compute|]. by vm_compute.
Qed.

(** C4, amended.  [clear] on a non-empty list unlinks the sentinel only:
    the list is empty afterwards ([empty] true, [size] 0, [begin] equal to
    [end]), the former members form a ring of their own in their former
    order, and no node outside the list is written.  A former member
    reports [is_linked] true exactly when the list held at least two
    members; the single member of a one-member list ends self-looped.
    Any former member can then be inserted at any position of any list
    whose sentinel is not itself a former member: it becomes a member at
    that position, the invariant holds, and the other former members stay
    a ring. *)
Theorem clear_semantics (h : heap) (d : addr) (xs : list addr) :
  WF h → is_list h d xs → xs ≠ [] →
  ∃ h', clear d h = Some ((), h') ∧
        WF h' ∧
        is_list h' d [] ∧
        empty d h' = Some (true, h') ∧
        (∀ fuel, size fuel d h' = Some (0, h')) ∧
        begin_ d h' = end_ d h' ∧
        cycle h' xs ∧
        (∀ x, x ∈ xs → is_linked x h' = Some (bool_decide (1 < length xs), h')) ∧
        (∀ c, c ∉ d :: xs → h' !! c = h !! c) ∧
        (∀ x d2 ys zs, x ∈ xs → is_list h' d2 (ys ++ zs) → d2 ∉ xs →
           ∃ h'', insert_ (hd d2 zs) x h' = Some (x, h'') ∧
                  WF h'' ∧
                  is_list h'' d2 (ys ++ x :: zs) ∧
                  (without x xs ≠ [] → cycle h'' (without x xs))).
Proof.
  intros HWF Hl Hne.
  destruct (clear_rings h d xs) as (h' & Hrun & HWF' & Hs & Hring & Hframe);
    [done..|].
  assert (is_list h' d []) as Hl' by (by apply is_list_nil).
  exists h'. split; [done|]. split; [done|]. split; [done|].
  split; [by rewrite (is_list_empty h' d [])|].
  split.
  { intros fuel. apply (is_list_size h' d [] fuel); [done|simpl; lia]. }
  split.
  { rewrite (is_list_begin h' d []); done. }
  split; [done|]. split.
  { intros x Hx. by apply cycle_is_linked. }
  split; [done|].
  intros x d2 ys zs Hx Hl2 Hd2.
  assert (∀ c, c ∈ xs → c ∉ d2 :: ys ++ zs) as Hdisj.
  { intros c Hc Hc'. apply Hd2.
    apply (cycle_share h' (d2 :: ys ++ zs) xs c); [done..|set_solver]. }
  assert (hd d2 zs ∈ d2 :: ys ++ zs) as Hpos by apply hd_elem_cons.
  destruct (insert_rings h' (hd d2 zs) x d2 ys zs)
    as (h'' & Hrun' & HWF'' & Hl'' & Hrings); try done.
  { intros Heq. apply (Hdisj x Hx). by rewrite <-Heq. }
  { apply nx_is_Some, (cycle_live _ _ _ Hring Hx). }
  { intros ->. apply (Hdisj d2 Hx). set_solver. }
  exists h''. split; [done|]. split; [done|]. split.
  - rewrite !without_notin in Hl''; [done|..].
    + intros Hin. apply (Hdisj x Hx). set_solver.
    + intros Hin. apply (Hdisj x Hx). set_solver.
  - intros Hw. apply Hrings; [done| |done].
    intros Hin. by apply (Hdisj _ Hin).
Qed.

(** A list of two members is cleared; both stay linked to each other, and
    the first is then pushed back into the same list. *)
Lemma clear_semantics_witness :
  WF heap_ab ∧ is_list heap_ab 1 [2; 3]%positive ∧
  ∃ h', clear 1%positive heap_ab = Some ((), h') ∧
        is_list h' 1 [] ∧
        cycle h' [2; 3]%positive ∧
        is_linked 2%positive h' = Some (true, h') ∧
        ∃ h'', insert_ 1%positive 2%positive h' = Some (2%positive, h'') ∧
               is_list h'' 1 [2]%positive.
Proof.
  assert (WF heap_ab) as HWF by (apply WF_map_Forall; compute_done).
  assert (is_list heap_ab 1 [2; 3]%positive) as Hl.
  { split; [compute_done|]. vm_compute. by repeat split. }
  split; [exact HWF|]. split; [exact Hl|].
  destruct (clear_semantics heap_ab 1 [2; 3]%positive HWF Hl)
    as (h' & Hrun & _ & Hl' & _ & _ & _ & Hring & Hlinked & _ & Hins);
    [done|].
  exists h'. split; [exact Hrun|]. split; [exact Hl'|]. split; [exact Hring|].
  split; [apply (Hlinked 2%positive); compute_done|].
  destruct (Hins 2%positive 1%positive [] []) as (h'' & Hrun' & _ & Hl'' & _).
  { compute_done. } { exact Hl'. } { compute_done. }
  exists h''. split; [exact Hrun'|exact Hl''].
Defined.

(** ** C3: [splice] *)

Section splicing.
Implicit Types (h : heap) (a b c x d : addr) (l xs : list addr).
#[local] Arguments cycle : simpl never.

(** Moving a range of one list into another list. *)
Lemma splice_between_lists h d ys zs d1 xs1 first mid xs2 :
  WF h →
  is_list h d (ys ++ zs) →
  is_list h d1 (xs1 ++ first :: mid ++ xs2) →
  d1 ∉ d :: ys ++ zs →
  ∃ h', splice (hd d zs) first (hd d1 xs2) h = Some ((), h') ∧
        WF h' ∧
        is_list h' d (ys ++ first :: mid ++ zs) ∧
        is_list h' d1 (xs1 ++ xs2).
Proof.
  unfold is_list. intros HWF Hl Hl1 Hd1.
  assert (∀ c, c ∈ d :: ys ++ zs → c ∉ d1 :: xs1 ++ first :: mid ++ xs2) as Hdisj.
  { intros c Hc Hc'. apply Hd1.
    apply (cycle_share h (d1 :: xs1 ++ first :: mid ++ xs2) _ c); [done..|set_solver]. }
  pose proof (cycle_NoDup _ _ Hl1) as Hnd1.
  set (pos := hd d zs). set (le := hd d1 xs2).
  assert (∃ l, cycle h (pos :: l) ∧
               (∀ h' r, cycle h' (pos :: l ++ r) → cycle h' (d :: ys ++ r ++ zs)) ∧
               (∀ c, c ∈ pos :: l ↔ c ∈ d :: ys ++ zs))
    as (l & Hpos & Hback & Hsame).
  { subst pos. destruct zs as [|z zs]; simpl.
    - exists ys. rewrite app_nil_r in Hl. split; [done|]. split.
      + intros h' r Hc. by rewrite app_nil_r.
      + intros c. by rewrite app_nil_r.
    - exists (zs ++ d :: ys). split; [|split].
      + by apply (cycle_rotate _ (d :: ys) (z :: zs)) in Hl.
      + intros h' r Hc.
        replace (d :: ys ++ r ++ z :: zs) with ((d :: ys ++ r) ++ z :: zs)
          by (simpl; by rewrite <-app_assoc).
        apply cycle_rotate.
        replace ((z :: zs) ++ d :: ys ++ r) with (z :: (zs ++ d :: ys) ++ r)
          by (simpl; by rewrite <-app_assoc).
        done.
      + intros c. set_solver. }
  assert (∃ rest, cycle h (first :: mid ++ le :: rest) ∧
               (∀ h', cycle h' (le :: rest) → cycle h' (d1 :: xs1 ++ xs2)) ∧
               (∀ c, c ∈ first :: mid ++ le :: rest ↔
                     c ∈ d1 :: xs1 ++ first :: mid ++ xs2))
    as (rest & Hrange & Hback1 & Hsame1).
  { subst le.
    apply (cycle_rotate _ (d1 :: xs1) (first :: mid ++ xs2)) in Hl1.
    simpl in Hl1. rewrite <-app_assoc in Hl1.
    destruct xs2 as [|x2 xs2]; simpl in *.
    - exists xs1. split; [done|]. split.
      + intros h' Hc. by rewrite app_nil_r.
      + intros c. set_solver.
    - exists (xs2 ++ d1 :: xs1). split; [done|]. split.
      + intros h' Hc. by apply (cycle_rotate _ (x2 :: xs2) (d1 :: xs1)) in Hc.
      + intros c. set_solver. }
  assert (first ≠ le) as Hfl.
  { apply cycle_NoDup in Hrange. intros Heq. nodup_inv. set_solver. }
  assert (pos ≠ le) as Hpl.
  { intros Heq. apply (Hdisj pos); [apply Hsame; set_solver|].
    apply Hsame1. rewrite Heq. set_solver. }
  assert (∃ bp bf last, pv h pos = Some bp ∧ pv h first = Some bf ∧
                        pv h le = Some last) as (bp & bf & last & Hbp & Hbf & Hlast).
  { destruct (live_fields h pos) as (bp & ? & ? & _).
    { apply nx_is_Some, (cycle_live _ _ _ Hpos). set_solver. }
    destruct (live_fields h first) as (bf & ? & ? & _).
    { apply nx_is_Some, (cycle_live _ _ _ Hrange). set_solver. }
    destruct (live_fields h le) as (last & ? & ? & _).
    { apply nx_is_Some, (cycle_live _ _ _ Hrange). set_solver. }
    eauto 10. }
  assert (wp (splice pos first le) h (λ _ h', spliced h bp first last pos bf le h'))
    as ([] & h' & Hrun & Hs).
  { apply (wp_splice pos first le last bp bf); auto. }
  exists h'. split; [done|]. split.
  { by apply (WF_spliced h bp first last pos bf le). }
  destruct (cycle_spliced_other h h' pos l first mid le rest bp bf last)
    as [Hc1 Hc2]; try done.
  { intros c Hc Hc'. apply (Hdisj c); [by apply Hsame|by apply Hsame1]. }
  split.
  - change (first :: mid ++ zs) with ((first :: mid) ++ zs). by apply Hback.
  - by apply Hback1.
Qed.
End splicing.

(** The example of the specification: with [L1 = [2; 3; 4]] and [L2]
    empty, [L2.splice(L2.end(), L1, L1.begin(), L1.end())] leaves [L1]
    empty and [L2] holding [2; 3; 4] in that order, at the same nodes. *)
Lemma splice_whole_list_example :
  ∃ h', splice 5%positive 2%positive 1%positive heap_abc_and_empty = Some ((), h') ∧
        is_list h' 5 [2; 3; 4]%positive ∧
        is_list h' 1 [] ∧
        empty 1%positive h' = Some (true, h') ∧
        WF h'.
Proof.
  assert (WF heap_abc_and_empty) as HWF by (apply WF_map_Forall; compute_done).
  destruct (splice_between_lists heap_abc_and_empty 5 [] [] 1 [] 2 [3; 4] [])%positive
    as (h' & Hrun & HWF' & H5 & H1).
  { exact HWF. }
  { split; [compute_done|]. vm_compute. by repeat split. }
  { split; [compute_done|]. vm_compute. by repeat split. }
  { compute_done. }
  exists h'. split; [exact Hrun|]. split; [exact H5|]. split; [exact H1|].
  split; [|exact HWF']. by rewrite (is_list_empty h' 1 [] H1).
Qed.

(** C3 fails when [pos] is the position just after the range, which asks
    for the range to stay where it is.  On [L = [2; 3; 4]] with sentinel
    [1], [splice(end(), L, begin(), end())] must leave [L] unchanged;
    instead the sentinel ends self-looped, so [L] is empty and iteration
    visits nothing, while the three nodes keep pointers that no longer
    match: [4] still points forward to the sentinel and [2] points back
    to [4].  The invariant is broken. *)
Theorem splice_before_own_end_loses_range :
  is_list heap_abc 1 [2; 3; 4]%positive ∧
  ∃ h', splice 1%positive 2%positive 1%positive heap_abc = Some ((), h') ∧
        is_list h' 1 [] ∧
        to_list 3 1%positive h' = Some ([], h') ∧
        ¬ is_list h' 1 [2; 3; 4]%positive ∧
        nx h' 4%positive = Some 1%positive ∧
        pv h' 1%positive = Some 1%positive ∧
        pv h' 2%positive = Some 4%positive ∧
        nx h' 4%positive ≠ Some 2%positive ∧
        ¬ WF h'.
Proof.
  split.
  { split; [compute_done|]. vm_compute. by repeat split. }
  eexists. split; [by vm_compute|].
  split; [split; [compute_done|by vm_compute]|].
  split; [by vm_compute|]. split; [compute_done|].
  split; [by vm_compute|]. split; [by vm_compute|]. split; [by vm_compute|].
  split; [by vm_compute|].
  intros [W1 _]. specialize (W1 4%positive 1%positive). vm_compute in W1.
  specialize (W1 eq_refl). done.
Qed.

(** ** Mutual inverses on a finite heap are rings *)

Section orbits.
Implicit Types (h : heap) (a b c x d : addr) (l xs : list addr).
#[local] Arguments cycle : simpl never.
#[local] Arguments forward : simpl never.

Lemma ring_invariant_WF h : ring_invariant h → WF h.
Proof.
  intros Hr. split; intros a b Hab.
  - destruct (Hr a) as [l [_ Hc]]; [apply nx_is_Some; eauto|].
    pose proof (chain_first _ _ _ _ Hc). pose proof (chain_first_pv _ _ _ _ Hc).
    congruence.
  - destruct (Hr a) as [l [_ Hc]]; [apply pv_is_Some; eauto|].
    pose proof (chain_last _ _ _ _ Hc). pose proof (chain_last_nx _ _ _ _ Hc).
    congruence.
Qed.

Lemma forward_S h i a : forward h (S i) a = default (forward h i a) (nx h (forward h i a)).
Proof. done. Qed.

Lemma forward_live h i a : WF h → is_Some (nx h a) → is_Some (nx h (forward h i a)).
Proof.
  intros HWF Ha. induction i as [|i IH]; [done|].
  rewrite forward_S. destruct IH as [b Hb]. rewrite Hb. simpl.
  by eapply WF_next_live.
Qed.

Lemma forward_links h i a :
  WF h → is_Some (nx h a) → links h (forward h i a) (forward h (S i) a).
Proof.
  intros HWF Ha. destruct (forward_live h i a HWF Ha) as [b Hb].
  rewrite forward_S, Hb. simpl. split; [done|]. destruct HWF as [W1 _]. auto.
Qed.

Lemma forward_chain h n a :
  WF h → is_Some (nx h a) →
  chain h a ((λ i, forward h (S i) a) <$> seq 0 n) (forward h (S n) a).
Proof.
  intros HWF Ha. induction n as [|n IH].
  - apply (forward_links h 0 a HWF Ha).
  - rewrite seq_S, fmap_app. simpl. apply chain_snoc. split; [done|].
    by apply forward_links.
Qed.

Lemma forward_inj h i j a :
  WF h → is_Some (nx h a) →
  forward h (S i) a = forward h (S j) a → forward h i a = forward h j a.
Proof.
  intros HWF Ha Heq.
  destruct (forward_links h i a HWF Ha) as [_ Hi].
  destruct (forward_links h j a HWF Ha) as [_ Hj].
  rewrite Heq in Hi. congruence.
Qed.

Lemma orbit_lookup h n a i :
  ((λ i, forward h i a) <$> seq 0 n) !! i = Some (forward h i a) ↔ i < n.
Proof.
  rewrite list_lookup_fmap. split.
  - intros Hl. destruct (seq 0 n !! i) eqn:E; [|done].
    by apply lookup_seq in E as [_ ?].
  - intros Hlt. by rewrite lookup_seq_lt.
Qed.

Lemma orbit_elem h n a x :
  x ∈ (λ i, forward h i a) <$> seq 0 n ↔ ∃ i, i < n ∧ x = forward h i a.
Proof.
  rewrite list_elem_of_fmap. split.
  - intros (i & -> & [_ ?]%elem_of_seq). eauto.
  - intros (i & ? & ->). exists i. split; [done|]. apply elem_of_seq. lia.
Qed.

Lemma orbit_bounded h n a :
  WF h → is_Some (nx h a) →
  NoDup ((λ i, forward h i a) <$> seq 0 n) → n ≤ length (elements (dom h)).
Proof.
  intros HWF Ha Hnd.
  assert (((λ i, forward h i a) <$> seq 0 n) ⊆+ elements (dom h)) as Hsub.
  { apply NoDup_submseteq; [done|]. intros x (i & _ & ->)%orbit_elem.
    apply elem_of_elements, elem_of_dom, nx_is_Some. by apply forward_live. }
  apply submseteq_length in Hsub. by rewrite length_fmap, length_seq in Hsub.
Qed.

(** Going forward from a live node, the first node met twice is the node
    one started from. *)
Lemma orbit_returns h n a :
  WF h → is_Some (nx h a) →
  (∃ k, k < n ∧ NoDup ((λ i, forward h i a) <$> seq 0 (S k)) ∧
        forward h (S k) a = a) ∨
  NoDup ((λ i, forward h i a) <$> seq 0 (S n)).
Proof.
  intros HWF Ha. induction n as [|n [(k & ? & ? & ?)|Hnd]].
  - right. simpl. apply NoDup_singleton.
  - left. exists k. split; [lia|done].
  - destruct (decide (forward h (S n) a ∈ (λ i, forward h i a) <$> seq 0 (S n)))
      as [Hin|Hout].
    + left. exists n. split; [lia|]. split; [done|].
      apply orbit_elem in Hin as (i & Hi & Heq).
      destruct i as [|i]; [done|]. exfalso.
      apply forward_inj in Heq; [|done..].
      assert (n = i); [|lia].
      eapply NoDup_lookup; [exact Hnd|..].
      * apply orbit_lookup. lia.
      * rewrite Heq. apply orbit_lookup. lia.
    + right. rewrite (seq_S (S n)), fmap_app.
      apply NoDup_app. split; [done|]. split; [|apply NoDup_singleton].
      intros x Hx Hx'. apply list_elem_of_singleton in Hx'. by subst x.
Qed.

Lemma WF_ring_invariant h : WF h → ring_invariant h.
Proof.
  intros HWF a Ha%nx_is_Some.
  destruct (orbit_returns h (length (elements (dom h))) a HWF Ha) as [(k & _ & Hnd & Hback)|Hnd].
  - exists ((λ i, forward h (S i) a) <$> seq 0 k). split.
    + cbn [seq] in Hnd. rewrite fmap_cons in Hnd.
      rewrite <-fmap_S_seq, <-list_fmap_compose in Hnd. done.
    + pose proof (forward_chain h k a HWF Ha) as Hc. by rewrite Hback in Hc.
  - apply orbit_bounded in Hnd; [lia|done..].
Qed.

Lemma ring_invariant_iff h : ring_invariant h ↔ WF h.
Proof. split; [apply ring_invariant_WF|apply WF_ring_invariant]. Qed.
End orbits.

(** ** C1: destruction *)

Section destruction.
Implicit Types (h : heap) (a b c x d : addr) (l xs : list addr).

Lemma destroy_fields h x :
  ∃ h', destroy x h = Some ((), h') ∧
        h' !! x = None ∧
        (∀ c, c ≠ x → h' !! c = h !! c) ∧
        (∀ c, c ≠ x → nx h' c = nx h c) ∧
        (∀ c, c ≠ x → pv h' c = pv h c).
Proof.
  exists (delete x h). split; [done|]. split; [apply lookup_delete_eq|].
  assert (∀ c, c ≠ x → delete x h !! c = h !! c) as Hfr.
  { intros c Hc. by apply lookup_delete_ne. }
  split; [done|]. unfold nx, pv. split; intros c Hc; by rewrite Hfr.
Qed.

Lemma destroy_self_looped_WF h h' x :
  WF h → self_looped h x → h' !! x = None →
  (∀ c, c ≠ x → nx h' c = nx h c) → (∀ c, c ≠ x → pv h' c = pv h c) →
  WF h'.
Proof.
  intros [W1 W2] [Hp Hn]%self_looped_fields Hx En Ep.
  assert (nx h' x = None) as Hnx by (unfold nx; by rewrite Hx).
  assert (pv h' x = None) as Hpx by (unfold pv; by rewrite Hx).
  split; intros a b Hab.
  - destruct (decide (a = x)) as [->|Ha]; [congruence|].
    rewrite En in Hab by done. pose proof (W1 _ _ Hab) as Hba.
    destruct (decide (b = x)) as [->|Hb]; [congruence|]. by rewrite Ep.
  - destruct (decide (a = x)) as [->|Ha]; [congruence|].
    rewrite Ep in Hab by done. pose proof (W2 _ _ Hab) as Hba.
    destruct (decide (b = x)) as [->|Hb]; [congruence|]. by rewrite En.
Qed.

Lemma destroy_linked_not_WF h h' x :
  WF h → is_Some (h !! x) → ¬ self_looped h x → h' !! x = None →
  (∀ c, c ≠ x → nx h' c = nx h c) →
  ¬ WF h'.
Proof.
  intros HWF (p & n & Hp & Hn)%live_fields Hlinked Hx En [W1' _].
  assert (p ≠ x) as Hne.
  { intros ->. apply Hlinked. by apply WF_self_looped. }
  destruct HWF as [_ W2]. apply W2 in Hp.
  rewrite <-En in Hp by done. apply W1' in Hp.
  apply pv_Some in Hp as [? Hp]. congruence.
Qed.
End destruction.

(** C1 fails on every linked node; this is the smallest list that shows
    it.  The destructor is defaulted and writes nothing.  After the member
    [3] of [[2; 3; 4]] is destroyed its neighbours still point at it, the
    list is not [[2; 4]], the invariant is broken, and iteration from the
    sentinel runs into the released storage.  The same holds for a list's
    sentinel: after [~list] the members [2] and [4] still point at it. *)
Lemma destroy_leaves_neighbours_pointing :
  is_list heap_abc 1 [2; 3; 4]%positive ∧
  (∃ h', destroy 3%positive heap_abc = Some ((), h') ∧
         h' !! 3%positive = None ∧
         nx h' 2%positive = Some 3%positive ∧
         pv h' 4%positive = Some 3%positive ∧
         ¬ is_list h' 1 [2; 4]%positive ∧
         ¬ WF h' ∧
         ∀ fuel, to_list fuel 1%positive h' = None) ∧
  (∃ h', list_destroy 1%positive heap_abc = Some ((), h') ∧
         h' !! 1%positive = None ∧
         pv h' 2%positive = Some 1%positive ∧
         nx h' 4%positive = Some 1%positive ∧
         ¬ WF h').
Proof.
  split; [split; [compute_done|]; vm_compute; by repeat split|]. split.
  - eexists. split; [by vm_compute|]. split; [by vm_compute|].
    split; [by vm_compute|]. split; [by vm_compute|]. split; [compute_done|].
    split.
    + intros [W1 _]. specialize (W1 2%positive 3%positive).
      vm_compute in W1. specialize (W1 eq_refl). done.
    + intros [|[|fuel]]; reflexivity.
  - eexists. split; [by vm_compute|]. split; [by vm_compute|].
    split; [by vm_compute|]. split; [by vm_compute|].
    intros [W1 _]. specialize (W1 4%positive 1%positive).
    vm_compute in W1. specialize (W1 eq_refl). done.
Qed.

(** C1.  What the destructor does, for every heap and node.  Destroying a
    node writes no field of any node: the storage of the node ends and
    every other node is as before.  The claimed unlinking does not take
    place: on a heap that satisfies the invariant, destroying any live node
    that is not self-looped breaks the invariant, its former neighbours
    being left pointing at it.  The rings stay consistent only when the
    node is self-looped when it is destroyed; so the sequence the claim
    promises is obtained when the caller erases (or unlinks) the member
    first and destroys it afterwards: the list then holds the remaining
    members in their order and iteration does not visit it. *)
Theorem destroy_semantics (h : heap) (x : addr) :
  ∃ h', destroy x h = Some ((), h') ∧
        h' !! x = None ∧
        (∀ c, c ≠ x → h' !! c = h !! c) ∧
        (WF h → self_looped h x →
           WF h' ∧ ∀ l, cycle h l → x ∉ l → cycle h' l) ∧
        (WF h → is_Some (h !! x) → ¬ self_looped h x → ¬ WF h') ∧
        (∀ d xs ys, WF h → is_list h d (xs ++ x :: ys) →
           ∃ h1 h2, erase x h = Some (hd d ys, h1) ∧
                    destroy x h1 = Some ((), h2) ∧
                    WF h2 ∧
                    is_list h2 d (xs ++ ys) ∧
                    ∀ fuel, length xs + length ys ≤ fuel →
                      to_list fuel d h2 = Some (xs ++ ys, h2)).
Proof.
  destruct (destroy_fields h x) as (h' & Hrun & Hx & Hfr & En & Ep).
  exists h'. split; [done|]. split; [done|]. split; [done|].
  split; [|split].
  - intros HWF Hs. split; [by eapply destroy_self_looped_WF|].
    intros l Hc Hout. eapply cycle_frame; [| |done]; intros c Hin;
      [apply En|apply Ep]; congruence.
  - intros HWF Hlive Hlinked. by eapply destroy_linked_not_WF.
  - intros d xs ys HWF Hl.
    destruct (erase_list_member h d xs x ys Hl)
      as (h1 & Hrun1 & Hl1 & Hs1 & _ & HWF1).
    destruct (destroy_fields h1 x) as (h2 & Hrun2 & Hx2 & _ & En2 & Ep2).
    exists h1, h2. split; [done|]. split; [done|].
    assert (x ∉ d :: xs ++ ys) as Hout.
    { pose proof (cycle_NoDup _ _ Hl) as Hnd. nodup_inv. set_solver. }
    assert (is_list h2 d (xs ++ ys)) as Hl2.
    { eapply cycle_frame; [| |exact Hl1]; intros c Hin;
        [apply En2|apply Ep2]; congruence. }
    split; [apply (destroy_self_looped_WF h1 h2 x); auto|]. split; [done|].
    intros fuel Hfuel. apply is_list_to_list; [done|]. rewrite length_app. lia.
Qed.

(** ** C2: the structural invariant *)

Section invariant.
Implicit Types (h : heap) (a b c x d : addr) (l xs : list addr).

Lemma heap_of_live (l : list (addr * (addr * addr))) a :
  is_Some (heap_of l !! a) → a ∈ l.*1.
Proof.
  intros [e He]. unfold heap_of in He.
  apply elem_of_list_to_map_2, list_elem_of_fmap in He as (e' & Heq & Hin).
  injection Heq as -> _. by apply list_elem_of_fmap_2.
Qed.

Lemma wp_preserves {A} (m : M A) h :
  wp m h (λ _ h', WF h') → preserves m h.
Proof.
  intros (r & h' & Hrun & HWF). exists r, h'. split; [done|].
  by apply WF_ring_invariant.
Qed.

Lemma wp_insert_WF pos v h :
  WF h → is_Some (h !! pos) → is_Some (h !! v) →
  wp (insert_ pos v) h (λ _ h', WF h').
Proof.
  intros HWF Hpos (p & n & Hp & Hn)%live_fields.
  destruct (decide (pos = v)) as [->|Hne].
  - unfold insert_. rewrite decide_True by done. by apply wp_ret.
  - apply (wp_insert pos v p n); auto.
Qed.

Lemma wp_erase_WF pos h :
  WF h → is_Some (h !! pos) → wp (erase pos) h (λ _ h', WF h').
Proof.
  intros HWF (p & n & Hp & Hn)%live_fields. apply (wp_erase pos p n); auto.
Qed.

Lemma wp_unlink_keeps_WF x h :
  WF h → is_Some (h !! x) → wp (unlink x) h (λ _ h', WF h').
Proof.
  intros HWF (p & n & Hp & Hn)%live_fields. apply (wp_unlink_WF x p n); auto.
Qed.

Lemma wp_move_assign_WF this other h :
  WF h → is_Some (h !! this) → is_Some (h !! other) →
  wp (move_assign this other) h (λ _ h', WF h').
Proof.
  intros HWF (p & n & Hp & Hn)%live_fields Hother.
  destruct (decide (this = other)) as [->|Hne].
  - unfold move_assign. rewrite decide_True by done. by apply wp_ret.
  - apply (wp_move_assign this other p n); auto.
Qed.

Lemma wp_splice_WF pos first le h :
  WF h → is_Some (h !! pos) → is_Some (h !! first) → is_Some (h !! le) →
  pos ≠ le →
  wp (splice pos first le) h (λ _ h', WF h').
Proof.
  intros HWF (bp & ? & Hbp & _)%live_fields (bf & ? & Hbf & _)%live_fields
    (last & ? & Hlast & _)%live_fields Hne.
  destruct (decide (first = le)) as [->|Hfl].
  - unfold splice. rewrite decide_True by done. by apply wp_ret.
  - apply (wp_splice pos first le last bp bf); [done..|].
    intros h' Hs. by apply (WF_spliced h bp first last pos bf le).
Qed.
End invariant.

(** C2, as the specification states it, fails for [clear]: it keeps the
    ring invariant but leaves the former members [2] and [3] linked to
    each other although they are members of no list. *)
Lemma clear_breaks_claimed_invariant :
  claimed_invariant [1%positive] heap_ab ∧
  ∃ h', clear 1%positive heap_ab = Some ((), h') ∧
        ring_invariant h' ∧
        ¬ claimed_invariant [1%positive] h'.
Proof.
  assert (WF heap_ab) as HWF by (apply WF_map_Forall; compute_done).
  assert (is_list heap_ab 1 [2; 3]%positive) as Hl.
  { split; [compute_done|]. vm_compute. by repeat split. }
  split.
  - split; [by apply WF_ring_invariant|].
    intros a Ha%heap_of_live Hout. exfalso.
    apply (Hout 1%positive [2; 3]%positive); [apply list_elem_of_here|done|exact Ha].
  - exists (heap_of [(1, (1, 1)); (2, (3, 3)); (3, (2, 2))]%positive).
    split; [by vm_compute|]. split.
    + apply WF_ring_invariant, WF_map_Forall. compute_done.
    + intros [_ Hself].
      assert (¬ self_looped
        (heap_of [(1, (1, 1)); (2, (3, 3)); (3, (2, 2))]%positive) 2%positive)
        as Hnot by compute_done.
      apply Hnot. apply Hself; [by vm_compute; eauto|].
      intros d xs ->%list_elem_of_singleton [Hnd Hc].
      destruct xs as [|y xs]; [compute_done|].
      destruct Hc as [[Hy _] _]. vm_compute in Hy. injection Hy as <-.
      apply NoDup_cons in Hnd as [Hin _]. set_solver.
Qed.

(** C2, amended.  The invariant every public operation keeps is the ring
    invariant: every live node lies on a ring of distinct nodes on which
    [prev] and [next] are mutual inverses, a self-looped node being a ring
    of one.  From a heap that satisfies it, each operation called on live
    nodes (constructors: on fresh storage) returns and re-establishes it;
    for [splice] this is stated for [pos] other than [last_exclusive]. *)
Theorem operations_preserve_rings (h : heap) :
  ring_invariant h →
  (∀ this, h !! this = None → preserves (construct this) h) ∧
  (∀ this other, h !! this = None → preserves (copy_construct this other) h) ∧
  (∀ this other, h !! this = None → is_Some (h !! other) →
     preserves (move_construct this other) h) ∧
  (∀ this other, is_Some (h !! this) → preserves (copy_assign this other) h) ∧
  (∀ this other, is_Some (h !! this) → is_Some (h !! other) →
     preserves (move_assign this other) h) ∧
  (∀ x, is_Some (h !! x) → preserves (unlink x) h) ∧
  (∀ pos v, is_Some (h !! pos) → is_Some (h !! v) → preserves (insert_ pos v) h) ∧
  (∀ pos, is_Some (h !! pos) → preserves (erase pos) h) ∧
  (∀ pos first le, is_Some (h !! pos) → is_Some (h !! first) →
     is_Some (h !! le) → pos ≠ le → preserves (splice pos first le) h) ∧
  (∀ d v, is_Some (h !! d) → is_Some (h !! v) → preserves (push_front d v) h) ∧
  (∀ d v, is_Some (h !! d) → is_Some (h !! v) → preserves (push_back d v) h) ∧
  (∀ d, is_Some (h !! d) → preserves (pop_front d) h) ∧
  (∀ d, is_Some (h !! d) → preserves (pop_back d) h) ∧
  (∀ d, is_Some (h !! d) → preserves (clear d) h).
Proof.
  intros HWF%ring_invariant_WF.
  assert (∀ this, h !! this = None → preserves (construct this) h) as Hctor.
  { intros this Hfresh.
    destruct (construct_fresh h this Hfresh) as (h' & Hrun & _ & _ & HWF' & _).
    exists (), h'. split; [done|]. by apply WF_ring_invariant, HWF'. }
  split; [done|]. split; [intros this other Hfresh; by apply Hctor|].
  split.
  { intros this other Hfresh Hother.
    destruct (construct_fresh h this Hfresh) as (h0 & Hrun0 & Hs0 & Hfr0 & HWF0 & _).
    apply wp_preserves. unfold move_construct. apply wp_bind.
    exists (), h0. split; [done|].
    apply wp_move_assign_WF; [auto|rewrite Hs0; eauto|].
    rewrite Hfr0; [done|]. intros ->. rewrite Hfresh in Hother.
    by destruct Hother. }
  split.
  { intros this other Hthis. apply wp_preserves. unfold copy_assign.
    case_decide; [by apply wp_ret|by apply wp_unlink_keeps_WF]. }
  split; [intros; by apply wp_preserves, wp_move_assign_WF|].
  split; [intros; by apply wp_preserves, wp_unlink_keeps_WF|].
  split; [intros; by apply wp_preserves, wp_insert_WF|].
  split; [intros; by apply wp_preserves, wp_erase_WF|].
  split; [intros; by apply wp_preserves, wp_splice_WF|].
  split.
  { intros d v (p & n & Hp & Hn)%live_fields Hv. apply wp_preserves.
    unfold push_front, begin_. apply wp_bind. eapply wp_get_next; [done|].
    apply wp_bind. eapply wp_mono.
    - apply wp_insert_WF; [done| |done].
      apply nx_is_Some. by eapply WF_next_live.
    - intros r h' HWF'. by apply wp_ret. }
  split.
  { intros d v Hd Hv. apply wp_preserves.
    unfold push_back, end_. apply wp_bind, wp_ret.
    apply wp_bind. eapply wp_mono.
    - by apply wp_insert_WF.
    - intros r h' HWF'. by apply wp_ret. }
  split.
  { intros d (p & n & Hp & Hn)%live_fields. apply wp_preserves.
    unfold pop_front, begin_. apply wp_bind. eapply wp_get_next; [done|].
    apply wp_bind. eapply wp_mono.
    - apply wp_erase_WF; [done|].
      apply nx_is_Some. by eapply WF_next_live.
    - intros r h' HWF'. by apply wp_ret. }
  split.
  { intros d (p & n & Hp & Hn)%live_fields. apply wp_preserves.
    unfold pop_back, end_. apply wp_bind, wp_ret.
    apply wp_bind. eapply wp_get_prev; [done|].
    apply wp_bind. eapply wp_mono.
    - apply wp_erase_WF; [done|].
      apply nx_is_Some. by eapply WF_prev_live.
    - intros r h' HWF'. by apply wp_ret. }
  intros d Hd. apply wp_preserves. by apply wp_unlink_keeps_WF.
Qed.

(** On the list [[2; 3; 4]]: erasing a member, clearing the list and
    splicing its first two members to its end all keep the invariant. *)
Lemma operations_preserve_rings_witness :
  ring_invariant heap_abc ∧
  preserves (erase 3%positive) heap_abc ∧
  preserves (clear 1%positive) heap_abc ∧
  preserves (splice 1%positive 2%positive 4%positive) heap_abc.
Proof.
  assert (ring_invariant heap_abc) as Hinv.
  { apply WF_ring_invariant, WF_map_Forall. compute_done. }
  split; [exact Hinv|].
  destruct (operations_preserve_rings heap_abc Hinv)
    as (_ & _ & _ & _ & _ & _ & _ & Herase & Hsplice & _ & _ & _ & _ & Hclear).
  split; [apply Herase; by vm_compute; eauto|].
  split; [apply Hclear; by vm_compute; eauto|].
  apply Hsplice; by vm_compute; eauto.
Defined.

(** ** Worked instances on the list [[2; 3; 4]] *)

(** Copy-assigning the member [2] to the member [3] takes [3] out of the
    list; [2] stays a member. *)
Lemma copy_semantics_witness :
  WF heap_abc ∧ is_list heap_abc 1 [2; 3; 4]%positive ∧
  ∃ h', copy_assign 3%positive 2%positive heap_abc = Some ((), h') ∧
        self_looped h' 3 ∧
        is_list h' 1 [2; 4]%positive.
Proof.
  assert (WF heap_abc) as HWF by (apply WF_map_Forall; compute_done).
  assert (is_list heap_abc 1 [2; 3; 4]%positive) as Hl.
  { split; [compute_done|]. vm_compute. by repeat split. }
  split; [exact HWF|]. split; [exact Hl|].
  destruct (proj2 (proj2 (copy_semantics heap_abc 3 2)) HWF)
    as (h' & Hrun & Hs & _ & _ & _ & Hlists & _);
    [done|by vm_compute; eauto|].
  exists h'. split; [exact Hrun|]. split; [exact Hs|].
  apply (Hlists 1%positive [2; 3; 4]%positive Hl). done.
Defined.

(** Move-constructing a node at the fresh address [5] from the member [3]
    puts [5] where [3] stood and leaves [3] self-looped. *)
Lemma move_semantics_witness :
  WF heap_abc ∧ is_list heap_abc 1 [2; 3; 4]%positive ∧
  ∃ h', move_construct 5%positive 3%positive heap_abc = Some ((), h') ∧
        self_looped h' 3 ∧
        is_list h' 1 [2; 5; 4]%positive.
Proof.
  assert (WF heap_abc) as HWF by (apply WF_map_Forall; compute_done).
  assert (is_list heap_abc 1 [2; 3; 4]%positive) as Hl.
  { split; [compute_done|]. vm_compute. by repeat split. }
  split; [exact HWF|]. split; [exact Hl|].
  destruct (proj2 (proj2 (move_semantics heap_abc 5 3)) HWF)
    as (h' & Hrun & _ & Hs & Hrings & _);
    [by vm_compute|by vm_compute; eauto|].
  exists h'. split; [exact Hrun|]. split; [exact Hs|].
  apply (Hrings [1; 2; 3; 4]%positive Hl).
Defined.

(** * Further properties of the code *)

(** ** No operation allocates or releases a node *)

Section domains.
Implicit Types (h : heap) (a b c x d : addr) (l xs : list addr).

Lemma keeps_dom_ret {A} (v : A) : keeps_dom (mret v).
Proof. intros h r h' [= _ ->]. done. Qed.

Lemma keeps_dom_bind {A B} (m : M A) (f : A → M B) :
  keeps_dom m → (∀ v, keeps_dom (f v)) → keeps_dom (m ≫= f).
Proof.
  intros Hm Hf h r h' Hrun. unfold mbind, M_bind in Hrun.
  destruct (m h) as [[v h1]|] eqn:E; [|done].
  rewrite (Hf v _ _ _ Hrun). by eapply Hm.
Qed.

Lemma keeps_dom_get_prev a : keeps_dom (get_prev a).
Proof.
  intros h r h'. unfold get_prev. destruct (h !! a); [|done]. by intros [= _ ->].
Qed.

Lemma keeps_dom_get_next a : keeps_dom (get_next a).
Proof.
  intros h r h'. unfold get_next. destruct (h !! a); [|done]. by intros [= _ ->].
Qed.

Lemma keeps_dom_set_prev a v : keeps_dom (set_prev a v).
Proof.
  intros h r h'. unfold set_prev. destruct (h !! a) eqn:E; [|done].
  intros [= _ <-]. apply dom_insert_lookup_L. eauto.
Qed.

Lemma keeps_dom_set_next a v : keeps_dom (set_next a v).
Proof.
  intros h r h'. unfold set_next. destruct (h !! a) eqn:E; [|done].
  intros [= _ <-]. apply dom_insert_lookup_L. eauto.
Qed.

Lemma keeps_dom_fail {A} : keeps_dom (λ _ : heap, @None (A * heap)).
Proof. by intros h r h'. Qed.
End domains.

Create HintDb keeps_dom discriminated.
#[global] Hint Resolve keeps_dom_ret keeps_dom_get_prev keeps_dom_get_next
  keeps_dom_set_prev keeps_dom_set_next keeps_dom_fail : keeps_dom.

Ltac keeps_dom_step :=
  repeat first
    [ apply keeps_dom_bind; [|intros ?]
    | case_decide
    | match goal with |- keeps_dom (if ?b then _ else _) => destruct b end
    | solve [auto with keeps_dom] ].

Section domains_ops.
Implicit Types (h : heap) (a b c x d : addr) (l xs : list addr).

Lemma keeps_dom_is_linked x : keeps_dom (is_linked x).
Proof. unfold is_linked. keeps_dom_step. Qed.

Lemma keeps_dom_link a b : keeps_dom (link a b).
Proof. unfold link. keeps_dom_step. Qed.

Lemma keeps_dom_unlink x : keeps_dom (unlink x).
Proof. unfold unlink. pose proof keeps_dom_link. keeps_dom_step. Qed.

Lemma keeps_dom_insert pos v : keeps_dom (insert_ pos v).
Proof.
  unfold insert_. pose proof keeps_dom_link. pose proof keeps_dom_unlink.
  keeps_dom_step.
Qed.

Lemma keeps_dom_erase pos : keeps_dom (erase pos).
Proof. unfold erase. pose proof keeps_dom_unlink. keeps_dom_step. Qed.

Lemma keeps_dom_splice pos first le : keeps_dom (splice pos first le).
Proof. unfold splice. pose proof keeps_dom_link. keeps_dom_step. Qed.

Lemma keeps_dom_move_assign this other : keeps_dom (move_assign this other).
Proof.
  unfold move_assign. pose proof keeps_dom_unlink. pose proof keeps_dom_is_linked.
  keeps_dom_step.
Qed.

Lemma keeps_dom_distance fuel a b : keeps_dom (distance fuel a b).
Proof.
  revert a. induction fuel as [|fuel IH]; intros a; simpl; keeps_dom_step.
Qed.

Lemma keeps_dom_traverse fuel a b : keeps_dom (traverse fuel a b).
Proof.
  revert a. induction fuel as [|fuel IH]; intros a; simpl; keeps_dom_step.
Qed.
End domains_ops.

(** X1.  The list never allocates and never releases: whenever one of
    [unlink], the two assignments, [insert], [erase], [splice],
    [push_front], [push_back], [pop_front], [pop_back], [clear], or one of
    the observers returns, exactly the same addresses hold live nodes as
    before, whatever the arguments were.  Only a constructor adds a node
    (its own storage) and only a destructor removes one (its own). *)
Theorem operations_keep_domain :
  (∀ x, keeps_dom (unlink x)) ∧
  (∀ this other, keeps_dom (copy_assign this other)) ∧
  (∀ this other, keeps_dom (move_assign this other)) ∧
  (∀ pos v, keeps_dom (insert_ pos v)) ∧
  (∀ pos, keeps_dom (erase pos)) ∧
  (∀ pos first le, keeps_dom (splice pos first le)) ∧
  (∀ d v, keeps_dom (push_front d v)) ∧
  (∀ d v, keeps_dom (push_back d v)) ∧
  (∀ d, keeps_dom (pop_front d)) ∧
  (∀ d, keeps_dom (pop_back d)) ∧
  (∀ d, keeps_dom (clear d)) ∧
  (∀ d other, keeps_dom (list_move_assign d other)) ∧
  (∀ fuel d, keeps_dom (size fuel d)) ∧
  (∀ d, keeps_dom (empty d)) ∧
  (∀ this h h', construct this h = Some ((), h') → dom h' = {[this]} ∪ dom h) ∧
  (∀ this other h h', move_construct this other h = Some ((), h') →
     dom h' = {[this]} ∪ dom h) ∧
  (∀ this h h', destroy this h = Some ((), h') → dom h' = dom h ∖ {[this]}).
Proof.
  pose proof keeps_dom_unlink. pose proof keeps_dom_move_assign.
  pose proof keeps_dom_insert. pose proof keeps_dom_erase.
  pose proof keeps_dom_splice. pose proof keeps_dom_distance.
  pose proof keeps_dom_is_linked.
  repeat split; try done.
  - intros this other. unfold copy_assign. keeps_dom_step.
  - intros d v. unfold push_front, begin_. keeps_dom_step.
  - intros d v. unfold push_back, end_. keeps_dom_step.
  - intros d. unfold pop_front, begin_. keeps_dom_step.
  - intros d. unfold pop_back, end_. keeps_dom_step.
  - intros fuel d. unfold size, begin_, end_. keeps_dom_step.
  - intros d. unfold empty. keeps_dom_step.
  - intros this h h' [= <-]. apply dom_insert_L.
  - intros this other h h'. unfold move_construct, mbind, M_bind, construct.
    intros Hrun. apply keeps_dom_move_assign in Hrun. rewrite Hrun.
    apply dom_insert_L.
  - intros this h h' [= <-]. apply dom_delete_L.
Qed.

(** ** The observers of a list *)

Section observers_more.
Implicit Types (h : heap) (a b c x d : addr) (l xs : list addr).


End observers_more.



(** ** [push_front], [push_back], [pop_front], [pop_back] *)

Section push_pop.
Implicit Types (h : heap) (a b c x d : addr) (l xs : list addr).

Lemma without_head v xs : NoDup (v :: xs) → v :: without v (v :: xs) = v :: xs.
Proof.
  intros [Hv _]%NoDup_cons. by rewrite without_cons_eq, without_notin.
Qed.

Lemma push_back_list h d xs v :
  WF h → is_list h d xs → is_Some (h !! v) → v ≠ d →
  ∃ h', push_back d v h = Some ((), h') ∧ WF h' ∧
        is_list h' d (without v xs ++ [v]).
Proof.
  intros HWF Hl Hv Hvd.
  destruct (insert_rings h d v d xs []) as (h' & Hrun & HWF' & Hl' & _);
    try done.
  { by rewrite app_nil_r. }
  exists h'. split; [|done].
  unfold push_back, end_, mbind, M_bind, mret, M_ret. by rewrite Hrun.
Qed.

Lemma push_front_list h d xs v :
  WF h → is_list h d xs → is_Some (h !! v) → v ≠ d →
  ∃ h', push_front d v h = Some ((), h') ∧ WF h' ∧
        is_list h' d (v :: without v xs).
Proof.
  intros HWF Hl Hv Hvd.
  assert (push_front d v h = (insert_ (hd d xs) v ≫= λ _, mret ()) h) as Hpf.
  { unfold push_front, mbind, M_bind. by rewrite (is_list_begin h d xs Hl). }
  rewrite Hpf. unfold mbind, M_bind.
  destruct (decide (hd d xs = v)) as [Heq|Hne].
  - exists h. unfold insert_. rewrite decide_True by done. split; [done|].
    split; [done|]. destruct xs as [|y xs]; simpl in *; [done|]. subst y.
    rewrite without_head; [done|].
    pose proof (cycle_NoDup _ _ Hl) as Hnd. by apply NoDup_cons in Hnd as [_ ?].
  - destruct (insert_rings h (hd d xs) v d [] xs) as (h' & Hrun & HWF' & Hl' & _);
      try done.
    exists h'. rewrite Hrun. done.
Qed.
End push_pop.

(** X3.  [push_back(v)] with [v] a live node other than the sentinel makes
    [v] the last member: the list holds its former members without [v],
    followed by [v]; so a node that was not a member is appended ([size]
    grows by one), and a member is moved to the back.  [back()] is then
    [v] and the invariant is kept. *)
Theorem push_back_appends (h : heap) (d : addr) (xs : list addr) (v : addr) :
  WF h → is_list h d xs → is_Some (h !! v) → v ≠ d →
  ∃ h', push_back d v h = Some ((), h') ∧
        WF h' ∧
        is_list h' d (without v xs ++ [v]) ∧
        back d h' = Some (v, h') ∧
        (v ∉ xs →
           is_list h' d (xs ++ [v]) ∧
           ∀ fuel, length xs < fuel →
             size fuel d h' = Some (S (length xs), h') ∧
             to_list fuel d h' = Some (xs ++ [v], h')).
Proof.
  intros HWF Hl Hv Hvd.
  destruct (push_back_list h d xs v) as (h' & Hrun & HWF' & Hl'); [done..|].
  exists h'. split; [done|]. split; [done|]. split; [done|]. split.
  { rewrite (is_list_back h' d _ Hl'). by rewrite last_of_snoc. }
  intros Hnotin. rewrite without_notin in Hl' by done. split; [done|].
  intros fuel Hfuel.
  assert (length (xs ++ [v]) = S (length xs)) as Hlen.
  { rewrite length_app. simpl. lia. }
  split.
  - rewrite <-Hlen. apply is_list_size; [done|]. lia.
  - apply is_list_to_list; [done|]. lia.
Qed.

Lemma push_back_appends_witness :
  WF heap_abc_and_node ∧ is_list heap_abc_and_node 1 [2; 3; 4]%positive ∧
  ∃ h', push_back 1%positive 5%positive heap_abc_and_node = Some ((), h') ∧
        is_list h' 1 [2; 3; 4; 5]%positive ∧
        back 1%positive h' = Some (5%positive, h').
Proof.
  assert (WF heap_abc_and_node) as HWF by (apply WF_map_Forall; compute_done).
  assert (is_list heap_abc_and_node 1 [2; 3; 4]%positive) as Hl.
  { split; [compute_done|]. vm_compute. by repeat split. }
  split; [exact HWF|]. split; [exact Hl|].
  destruct (push_back_appends heap_abc_and_node 1 [2; 3; 4]%positive 5 HWF Hl)
    as (h' & Hrun & _ & _ & Hb & Hfresh); [by vm_compute; eauto|done|].
  exists h'. split; [exact Hrun|]. split; [|exact Hb].
  apply Hfresh. compute_done.
Defined.

(** X4.  [push_front(v)] with [v] a live node other than the sentinel
    makes [v] the first member: the list holds [v] followed by its former
    members without [v]; this includes the case where [v] already is the
    first member, in which nothing is written.  [front()] is then [v]. *)
Theorem push_front_prepends (h : heap) (d : addr) (xs : list addr) (v : addr) :
  WF h → is_list h d xs → is_Some (h !! v) → v ≠ d →
  ∃ h', push_front d v h = Some ((), h') ∧
        WF h' ∧
        is_list h' d (v :: without v xs) ∧
        front d h' = Some (v, h') ∧
        (hd d xs = v → h' = h) ∧
        (v ∉ xs →
           is_list h' d (v :: xs) ∧
           ∀ fuel, length xs < fuel →
             size fuel d h' = Some (S (length xs), h')).
Proof.
  intros HWF Hl Hv Hvd.
  destruct (push_front_list h d xs v) as (h' & Hrun & HWF' & Hl'); [done..|].
  exists h'. split; [done|]. split; [done|]. split; [done|]. split.
  { unfold front. by rewrite (is_list_begin h' d _ Hl'). }
  split.
  { intros Heq. unfold push_front, mbind, M_bind in Hrun.
    rewrite (is_list_begin h d xs Hl) in Hrun. unfold insert_ in Hrun.
    rewrite decide_True in Hrun by done. by injection Hrun as <-. }
  intros Hnotin. rewrite without_notin in Hl' by done. split; [done|].
  intros fuel Hfuel.
  change (S (length xs)) with (length (v :: xs)).
  apply is_list_size; [done|]. simpl. lia.
Qed.

Lemma push_front_prepends_witness :
  WF heap_abc_and_node ∧ is_list heap_abc_and_node 1 [2; 3; 4]%positive ∧
  ∃ h', push_front 1%positive 5%positive heap_abc_and_node = Some ((), h') ∧
        is_list h' 1 [5; 2; 3; 4]%positive ∧
        front 1%positive h' = Some (5%positive, h').
Proof.
  assert (WF heap_abc_and_node) as HWF by (apply WF_map_Forall; compute_done).
  assert (is_list heap_abc_and_node 1 [2; 3; 4]%positive) as Hl.
  { split; [compute_done|]. vm_compute. by repeat split. }
  split; [exact HWF|]. split; [exact Hl|].
  destruct (push_front_prepends heap_abc_and_node 1 [2; 3; 4]%positive 5 HWF Hl)
    as (h' & Hrun & _ & _ & Hf & _ & Hfresh); [by vm_compute; eauto|done|].
  exists h'. split; [exact Hrun|]. split; [|exact Hf].
  apply Hfresh. compute_done.
Defined.

(** X5.  On a non-empty list [pop_front()] removes the first member and
    nothing else: the list holds the remaining members in order, the
    removed node is self-looped, and nodes outside the list are
    untouched. *)
Theorem pop_front_removes_first (h : heap) (d x : addr) (xs : list addr) :
  is_list h d (x :: xs) →
  ∃ h', pop_front d h = Some ((), h') ∧
        is_list h' d xs ∧
        self_looped h' x ∧
        (∀ c, c ∉ d :: x :: xs → h' !! c = h !! c) ∧
        (WF h → WF h').
Proof.
  intros Hl.
  destruct (erase_list_member h d [] x xs Hl) as (h' & Hrun & Hl' & Hs & Hfr & HWF).
  exists h'. split; [|done].
  unfold pop_front, mbind, M_bind. rewrite (is_list_begin h d _ Hl). simpl.
  by rewrite Hrun.
Qed.

Lemma pop_front_removes_first_witness :
  is_list heap_abc 1 [2; 3; 4]%positive ∧
  ∃ h', pop_front 1%positive heap_abc = Some ((), h') ∧
        is_list h' 1 [3; 4]%positive ∧
        self_looped h' 2.
Proof.
  assert (is_list heap_abc 1 [2; 3; 4]%positive) as Hl.
  { split; [compute_done|]. vm_compute. by repeat split. }
  split; [exact Hl|].
  destruct (pop_front_removes_first heap_abc 1 2 [3; 4]%positive Hl)
    as (h' & Hrun & Hl' & Hs & _).
  exists h'. split; [exact Hrun|]. split; [exact Hl'|exact Hs].
Defined.

(** X6.  On a non-empty list [pop_back()] removes the last member and
    nothing else. *)
Theorem pop_back_removes_last (h : heap) (d : addr) (xs : list addr) (x : addr) :
  is_list h d (xs ++ [x]) →
  ∃ h', pop_back d h = Some ((), h') ∧
        is_list h' d xs ∧
        self_looped h' x ∧
        (∀ c, c ∉ d :: xs ++ [x] → h' !! c = h !! c) ∧
        (WF h → WF h').
Proof.
  intros Hl.
  destruct (erase_list_member h d xs x [] Hl) as (h' & Hrun & Hl' & Hs & Hfr & HWF).
  rewrite app_nil_r in Hl'.
  exists h'. split; [|done].
  pose proof (is_list_back h d _ Hl) as Hb. rewrite last_of_snoc in Hb.
  unfold back, end_, mbind, M_bind, mret, M_ret in Hb.
  unfold pop_back, end_, mbind, M_bind, mret, M_ret.
  destruct (get_prev d h) as [[p h1]|]; [|done]. injection Hb as -> ->.
  by rewrite Hrun.
Qed.

Lemma pop_back_removes_last_witness :
  is_list heap_abc 1 [2; 3; 4]%positive ∧
  ∃ h', pop_back 1%positive heap_abc = Some ((), h') ∧
        is_list h' 1 [2; 3]%positive ∧
        self_looped h' 4.
Proof.
  assert (is_list heap_abc 1 [2; 3; 4]%positive) as Hl.
  { split; [compute_done|]. vm_compute. by repeat split. }
  split; [exact Hl|].
  destruct (pop_back_removes_last heap_abc 1 [2; 3]%positive 4 Hl)
    as (h' & Hrun & Hl' & Hs & _).
  exists h'. split; [exact Hrun|]. split; [exact Hl'|exact Hs].
Defined.

(** ** Round trips *)

Section round_trips.
Implicit Types (h : heap) (a b c x d : addr) (l xs : list addr).

(** X8.  [erase] returns the position at which the erased node can be put
    back: [it = erase(x); insert(it, x)] restores every pointer of the
    heap, for every live node [x] (also for one that was already
    unlinked). *)
Theorem erase_insert_round_trip (h : heap) (x : addr) :
  WF h → is_Some (h !! x) →
  (erase x ≫= λ it, insert_ it x) h = Some (x, h).
Proof.
  intros HWF (p & n & Hp & Hn)%live_fields.
  assert (wp (erase x ≫= λ it, insert_ it x) h (λ r h', r = x ∧ h' = h))
    as (r & h' & Hrun & -> & ->); [|done].
  pose proof HWF as [W1 W2]. pose proof (W1 _ _ Hn). pose proof (W2 _ _ Hp).
  apply wp_bind. apply (wp_erase x p n); [done..|].
  intros h1 [En1 Ep1] HWF1 Hs1.
  destruct (decide (n = x)) as [->|Hne].
  - unfold insert_. rewrite decide_True by done. apply wp_ret. split; [done|].
    apply heap_ext; intros c; [rewrite En1|rewrite Ep1];
      fields_cases; congruence.
  - apply (wp_insert n x x x); [done..|by apply self_looped_fields in Hs1 as [? ?]
      |by apply self_looped_fields in Hs1 as [? ?]| |].
    { apply nx_is_Some. rewrite En1. fields_cases; eauto using pv_live. }
    intros h2 bp h3 [En2 Ep2] _ _ Hbp [En3 Ep3] _. split; [done|].
    assert (bp = p) as ->.
    { rewrite Ep2, Ep1 in Hbp. repeat case_decide; congruence. }
    apply heap_ext; intros c.
    + rewrite En3, En2, En1. fields_cases; congruence.
    + rewrite Ep3, Ep2, Ep1. fields_cases; congruence.
Qed.

Lemma push_back_pop_back_restores h d v :
  WF h → self_looped h v → is_Some (h !! d) → v ≠ d →
  (push_back d v ≫= λ _, pop_back d) h = Some ((), h).
Proof.
  intros HWF Hs Hd Hne.
  pose proof Hs as [Hvp Hvn]%self_looped_fields.
  destruct (live_fields h d Hd) as (q & m & Hq & Hm).
  pose proof HWF as [W1 W2]. pose proof (W1 _ _ Hm). pose proof (W2 _ _ Hq).
  assert (wp (push_back d v ≫= λ _, pop_back d) h (λ _ h', h' = h))
    as ([] & h' & Hrun & ->); [|done].
  apply wp_bind. unfold push_back, end_. apply wp_bind, wp_ret.
  apply wp_bind. apply (wp_insert d v v v); [done..|].
  intros h1 bp h2 [En1 Ep1] _ _ Hbp [En2 Ep2] HWF2. apply wp_ret.
  assert (bp = q) as ->.
  { rewrite Ep1 in Hbp. repeat case_decide; congruence. }
  unfold pop_back, end_. apply wp_bind, wp_ret.
  apply wp_bind. apply (wp_get_prev d v).
  { rewrite Ep2. by rewrite decide_True. }
  apply wp_bind. apply (wp_erase v q d); [done| | |].
  { rewrite Ep2. by fields_cases. }
  { rewrite En2. by fields_cases. }
  intros h3 [En3 Ep3] _ _. apply wp_ret.
  apply heap_ext; intros c.
  - rewrite En3, En2, En1. fields_cases; congruence.
  - rewrite Ep3, Ep2, Ep1. fields_cases; congruence.
Qed.

Lemma push_front_pop_front_restores h d v :
  WF h → self_looped h v → is_Some (h !! d) → v ≠ d →
  (push_front d v ≫= λ _, pop_front d) h = Some ((), h).
Proof.
  intros HWF Hs Hd Hne.
  pose proof Hs as [Hvp Hvn]%self_looped_fields.
  destruct (live_fields h d Hd) as (q & m & Hq & Hm).
  pose proof HWF as [W1 W2]. pose proof (W1 _ _ Hm). pose proof (W2 _ _ Hq).
  assert (m ≠ v) as Hmv.
  { intros ->. congruence. }
  assert (wp (push_front d v ≫= λ _, pop_front d) h (λ _ h', h' = h))
    as ([] & h' & Hrun & ->); [|done].
  apply wp_bind. unfold push_front, begin_.
  apply wp_bind. apply (wp_get_next d m); [done|].
  apply wp_bind. apply (wp_insert m v v v); [done..| |].
  { apply nx_is_Some. by eapply WF_next_live. }
  intros h1 bp h2 [En1 Ep1] _ _ Hbp [En2 Ep2] HWF2. apply wp_ret.
  assert (bp = d) as ->.
  { rewrite Ep1 in Hbp. repeat case_decide; congruence. }
  unfold pop_front, begin_.
  apply wp_bind. apply (wp_get_next d v).
  { rewrite En2. by fields_cases. }
  apply wp_bind. apply (wp_erase v d m); [done| | |].
  { rewrite Ep2. by fields_cases. }
  { rewrite En2. by fields_cases. }
  intros h3 [En3 Ep3] _ _. apply wp_ret.
  apply heap_ext; intros c.
  - rewrite En3, En2, En1. fields_cases; congruence.
  - rewrite Ep3, Ep2, Ep1. fields_cases; congruence.
Qed.

Lemma insert_in_place h pos v :
  WF h → pv h pos = Some v → v ≠ pos →
  insert_ pos v h = Some (v, h).
Proof.
  intros HWF Hpos Hne.
  pose proof HWF as [W1 W2]. pose proof (W2 _ _ Hpos) as Hvn.
  destruct (live_fields h v) as (p & n & Hp & Hn).
  { apply nx_is_Some. eauto. }
  assert (n = pos) as -> by congruence.
  pose proof (W2 _ _ Hp).
  assert (wp (insert_ pos v) h (λ r h', r = v ∧ h' = h))
    as (r & h' & Hrun & -> & ->); [|done].
  apply (wp_insert pos v p pos); [done..| |].
  { apply nx_is_Some, (pv_live h pos v Hpos). }
  intros h1 bp h2 [En1 Ep1] _ _ Hbp [En2 Ep2] _. split; [done|].
  assert (bp = p) as ->.
  { rewrite Ep1 in Hbp. repeat case_decide; congruence. }
  apply heap_ext; intros c.
  - rewrite En2, En1. fields_cases; congruence.
  - rewrite Ep2, Ep1. fields_cases; congruence.
Qed.
End round_trips.

(** X7.  Pushing an unlinked node and popping at the same end is a round
    trip: after [push_back(v); pop_back()], and after
    [push_front(v); pop_front()], every node of the heap has exactly the
    pointers it had before. *)
Theorem push_pop_round_trip (h : heap) (d v : addr) :
  WF h → self_looped h v → is_Some (h !! d) → v ≠ d →
  (push_back d v ≫= λ _, pop_back d) h = Some ((), h) ∧
  (push_front d v ≫= λ _, pop_front d) h = Some ((), h).
Proof.
  intros HWF Hs Hd Hne. split.
  - by apply push_back_pop_back_restores.
  - by apply push_front_pop_front_restores.
Qed.

Lemma push_pop_round_trip_witness :
  WF heap_abc_and_node ∧ self_looped heap_abc_and_node 5 ∧
  (push_back 1%positive 5%positive ≫= λ _, pop_back 1%positive) heap_abc_and_node
    = Some ((), heap_abc_and_node) ∧
  (push_front 1%positive 5%positive ≫= λ _, pop_front 1%positive) heap_abc_and_node
    = Some ((), heap_abc_and_node).
Proof.
  assert (WF heap_abc_and_node) as HWF by (apply WF_map_Forall; compute_done).
  assert (self_looped heap_abc_and_node 5) as Hs by compute_done.
  split; [exact HWF|]. split; [exact Hs|].
  apply (push_pop_round_trip heap_abc_and_node 1 5 HWF Hs);
    [by vm_compute; eauto|done].
Defined.

Lemma erase_insert_round_trip_witness :
  WF heap_abc ∧
  (erase 3%positive ≫= λ it, insert_ it 3%positive) heap_abc
    = Some (3%positive, heap_abc).
Proof.
  assert (WF heap_abc) as HWF by (apply WF_map_Forall; compute_done).
  split; [exact HWF|].
  apply (erase_insert_round_trip heap_abc 3 HWF). by vm_compute; eauto.
Defined.

(** X9.  [insert] is idempotent: a second [insert(pos, v)] right after the
    first writes nothing; more generally, [insert(pos, v)] leaves the heap
    as it is whenever [v] already is the node before [pos]. *)
Theorem insert_idempotent (h : heap) (pos v : addr) :
  WF h → is_Some (h !! pos) → is_Some (h !! v) → pos ≠ v →
  ∃ h', insert_ pos v h = Some (v, h') ∧
        pv h' pos = Some v ∧
        insert_ pos v h' = Some (v, h') ∧
        (pv h pos = Some v → h' = h).
Proof.
  intros HWF Hpos (p & n & Hp & Hn)%live_fields Hne.
  assert (wp (insert_ pos v) h (λ r h', r = v ∧ WF h' ∧ pv h' pos = Some v))
    as (r & h' & Hrun & -> & HWF' & Hprev).
  { apply (wp_insert pos v p n); [done..|].
    intros h1 bp h2 _ _ _ _ [_ Ep2] HWF2. split; [done|]. split; [done|].
    rewrite Ep2. by rewrite decide_True. }
  exists h'. split; [done|]. split; [done|]. split.
  - apply insert_in_place; [done..|congruence].
  - intros Hin. pose proof (insert_in_place h pos v HWF Hin) as Hsame.
    rewrite Hrun in Hsame. injection Hsame as ->; [done|congruence].
Qed.

Lemma insert_idempotent_witness :
  WF heap_abc ∧
  ∃ h', insert_ 2%positive 4%positive heap_abc = Some (4%positive, h') ∧
        is_list h' 1 [4; 2; 3]%positive ∧
        insert_ 2%positive 4%positive h' = Some (4%positive, h').
Proof.
  assert (WF heap_abc) as HWF by (apply WF_map_Forall; compute_done).
  split; [exact HWF|].
  destruct (insert_idempotent heap_abc 2 4 HWF) as (h' & Hrun & _ & Hagain & _);
    [by vm_compute; eauto|by vm_compute; eauto|done|].
  exists h'. split; [exact Hrun|]. split; [|exact Hagain].
  vm_compute in Hrun. injection Hrun as <-.
  split; [compute_done|]. vm_compute. by repeat split.
Defined.

(** X10.  [erase(end())] on a non-empty list is not refused: it unlinks the
    sentinel, exactly as [clear()] does, and returns the former first
    member.  The list is empty afterwards and the former members are left
    on a ring of their own. *)
Theorem erase_end_clears (h : heap) (d : addr) (xs : list addr) :
  WF h → is_list h d xs → xs ≠ [] →
  ∃ h', erase d h = Some (hd d xs, h') ∧
        clear d h = Some ((), h') ∧
        is_list h' d [] ∧
        cycle h' xs ∧
        hd d xs ∈ xs.
Proof.
  intros HWF Hl Hne.
  destruct (clear_rings h d xs) as (h' & Hrun & _ & Hs & Hring & _); [done..|].
  exists h'. split; [|split; [done|]].
  - unfold erase, mbind, M_bind.
    pose proof (is_list_begin h d xs Hl) as Hb. unfold begin_ in Hb.
    rewrite Hb. unfold clear in Hrun. by rewrite Hrun.
  - split; [by apply is_list_nil|]. split; [done|].
    destruct xs; [done|]. simpl. set_solver.
Qed.

Lemma erase_end_clears_witness :
  WF heap_abc ∧ is_list heap_abc 1 [2; 3; 4]%positive ∧
  ∃ h', erase 1%positive heap_abc = Some (2%positive, h') ∧
        is_list h' 1 [] ∧
        cycle h' [2; 3; 4]%positive.
Proof.
  assert (WF heap_abc) as HWF by (apply WF_map_Forall; compute_done).
  assert (is_list heap_abc 1 [2; 3; 4]%positive) as Hl.
  { split; [compute_done|]. vm_compute. by repeat split. }
  split; [exact HWF|]. split; [exact Hl|].
  destruct (erase_end_clears heap_abc 1 [2; 3; 4]%positive HWF Hl)
    as (h' & Hrun & _ & Hl' & Hring & _); [done|].
  exists h'. split; [exact Hrun|]. split; [exact Hl'|exact Hring].
Defined.

(** ** Moving a whole list *)

Section list_moves.
Implicit Types (h : heap) (a b c x d : addr) (l xs : list addr).

Lemma renamed_head d d' xs : d ∉ xs → renamed d d' (d :: xs) = d' :: xs.
Proof.
  intros Hd. unfold renamed. rewrite fmap_cons, decide_True by done.
  f_equal. by apply renamed_notin.
Qed.
End list_moves.

(** X11.  The move constructor of [list] ([= default], so it move-constructs
    the sentinel) hands the whole sequence over in one step: the new list
    holds the members of the source in the same order and at the same
    nodes, the source is left empty, and every other ring is as before. *)
Theorem list_move_construct_transfers (h : heap) (d' d : addr) (xs : list addr) :
  WF h → h !! d' = None → is_list h d xs →
  ∃ h', list_move_construct d' d h = Some ((), h') ∧
        WF h' ∧
        is_list h' d' xs ∧
        is_list h' d [] ∧
        (∀ l, cycle h l → d ∉ l → cycle h' l) ∧
        (∀ fuel, length xs ≤ fuel → to_list fuel d' h' = Some (xs, h')).
Proof.
  intros HWF Hfresh Hl.
  pose proof (cycle_NoDup _ _ Hl) as [Hd _]%NoDup_cons.
  assert (is_Some (h !! d)) as Hlive.
  { apply nx_is_Some, (cycle_live _ _ _ Hl). set_solver. }
  assert (d' ≠ d) as Hne.
  { intros ->. rewrite Hfresh in Hlive. by destruct Hlive. }
  destruct (construct_fresh h d' Hfresh) as (h0 & Hrun0 & Hs0 & Hfr0 & HWF0 & Hc0).
  destruct (move_assign_rings h0 d' d) as (h' & Hrun & HWF' & Hso & Hin & Hout & _).
  { auto. } { done. } { rewrite Hs0. eauto. } { by rewrite Hfr0. }
  assert (∀ l, cycle h l → d' ∉ l) as Hnotin.
  { intros l Hc Hin'. apply (cycle_live _ _ _ Hc), nx_is_Some in Hin'.
    rewrite Hfresh in Hin'. by destruct Hin'. }
  assert (is_list h' d' xs) as Hl'.
  { unfold is_list. rewrite <-(renamed_head d d' xs) by done.
    rewrite <-(without_notin d' (d :: xs)) by (by apply Hnotin).
    apply Hin; [by apply Hc0|set_solver]. }
  exists h'. split.
  { unfold list_move_construct, move_construct, mbind, M_bind. by rewrite Hrun0. }
  split; [done|]. split; [done|]. split; [by apply is_list_nil|]. split.
  - intros l Hc Hdl. rewrite <-(without_notin d' l) by (by apply Hnotin).
    apply Hout; [by apply Hc0|done|].
    rewrite without_notin by (by apply Hnotin). by destruct l.
  - intros fuel Hfuel. by apply is_list_to_list.
Qed.

Lemma list_move_construct_transfers_witness :
  WF heap_abc ∧ is_list heap_abc 1 [2; 3; 4]%positive ∧
  ∃ h', list_move_construct 5%positive 1%positive heap_abc = Some ((), h') ∧
        is_list h' 5 [2; 3; 4]%positive ∧
        is_list h' 1 [].
Proof.
  assert (WF heap_abc) as HWF by (apply WF_map_Forall; compute_done).
  assert (is_list heap_abc 1 [2; 3; 4]%positive) as Hl.
  { split; [compute_done|]. vm_compute. by repeat split. }
  split; [exact HWF|]. split; [exact Hl|].
  destruct (list_move_construct_transfers heap_abc 5 1 [2; 3; 4]%positive HWF)
    as (h' & Hrun & _ & H5 & H1 & _); [by vm_compute|exact Hl|].
  exists h'. split; [exact Hrun|]. split; [exact H5|exact H1].
Defined.

(** X12.  Move assignment of [list] ([= default], so it move-assigns the
    sentinel) hands the sequence of the source over to the target and
    leaves the source empty.  The members the target held before are not
    unlinked one by one: they are left linked to each other on a ring
    without sentinel, as after [clear()].  Assigning a list to itself
    changes nothing. *)
Theorem list_move_assign_transfers (h : heap) (d' d : addr) (ys xs : list addr) :
  WF h → is_list h d' ys → is_list h d xs → d' ∉ d :: xs →
  list_move_assign d d h = Some ((), h) ∧
  ∃ h', list_move_assign d' d h = Some ((), h') ∧
        WF h' ∧
        is_list h' d' xs ∧
        is_list h' d [] ∧
        (ys ≠ [] → cycle h' ys) ∧
        (∀ y, y ∈ ys → is_linked y h' = Some (bool_decide (1 < length ys), h')).
Proof.
  intros HWF Hl' Hl Hdisj. split.
  { unfold list_move_assign, move_assign. by rewrite decide_True. }
  pose proof (cycle_NoDup _ _ Hl) as [Hd _]%NoDup_cons.
  pose proof (cycle_NoDup _ _ Hl') as [Hd' _]%NoDup_cons.
  assert (d' ≠ d) as Hne by set_solver.
  destruct (move_assign_rings h d' d) as (h' & Hrun & HWF' & Hso & Hin & Hout & _);
    [done..| | |].
  { apply nx_is_Some, (cycle_live _ _ _ Hl'). set_solver. }
  { apply nx_is_Some, (cycle_live _ _ _ Hl). set_solver. }
  exists h'. split; [done|]. split; [done|]. split.
  { unfold is_list. rewrite <-(renamed_head d d' xs) by done.
    rewrite <-(without_notin d' (d :: xs)) by done.
    apply Hin; [done|set_solver]. }
  split; [by apply is_list_nil|].
  assert (ys ≠ [] → cycle h' ys) as Hring.
  { intros Hys.
    assert (without d' (d' :: ys) = ys) as Hw.
    { rewrite without_cons_eq. by apply without_notin. }
    rewrite <-Hw. apply Hout; [done| |by rewrite Hw].
    intros Hmem. apply Hdisj.
    apply (cycle_share h (d' :: ys) (d :: xs) d); [done..|set_solver|set_solver]. }
  split; [done|].
  intros y Hy. apply cycle_is_linked; [|done]. apply Hring.
  intros ->. by apply elem_of_nil in Hy.
Qed.

Lemma list_move_assign_transfers_witness :
  WF heap_two_lists ∧
  is_list heap_two_lists 5 [6]%positive ∧
  is_list heap_two_lists 1 [2; 3; 4]%positive ∧
  ∃ h', list_move_assign 5%positive 1%positive heap_two_lists = Some ((), h') ∧
        is_list h' 5 [2; 3; 4]%positive ∧
        is_list h' 1 [] ∧
        is_linked 6%positive h' = Some (false, h').
Proof.
  assert (WF heap_two_lists) as HWF by (apply WF_map_Forall; compute_done).
  assert (is_list heap_two_lists 5 [6]%positive) as H5.
  { split; [compute_done|]. vm_compute. by repeat split. }
  assert (is_list heap_two_lists 1 [2; 3; 4]%positive) as H1.
  { split; [compute_done|]. vm_compute. by repeat split. }
  split; [exact HWF|]. split; [exact H5|]. split; [exact H1|].
  destruct (list_move_assign_transfers heap_two_lists 5 1 [6]%positive
              [2; 3; 4]%positive HWF H5 H1)
    as (_ & h' & Hrun & _ & H5' & H1' & _ & Hlinked); [compute_done|].
  exists h'. split; [exact Hrun|]. split; [exact H5'|]. split; [exact H1'|].
  apply (Hlinked 6%positive). compute_done.
Defined.

(** ** [splice] where it moves the range *)

Ltac reassoc := repeat (progress (simpl; rewrite <-?app_assoc)); done.

Section splice_lists.
Implicit Types (h : heap) (a b c x d : addr) (l xs : list addr).
#[local] Arguments cycle : simpl never.

(** The ring shape [splice] needs, and the step it makes on it. *)
Lemma splice_same_ring h pos l1 first mid le l2 :
  WF h → cycle h (pos :: l1 ++ first :: mid ++ le :: l2) →
  ∃ h', splice pos first le h = Some ((), h') ∧ WF h' ∧
        cycle h' (pos :: l1 ++ le :: l2 ++ first :: mid).
Proof.
  intros HWF Hc. pose proof (cycle_NoDup _ _ Hc) as Hnd.
  assert (first ≠ le ∧ pos ≠ le) as [Hfl Hpl] by (nodup_inv; set_solver).
  destruct (live_fields h pos) as (bp & ? & Hbp & _).
  { apply nx_is_Some, (cycle_live _ _ _ Hc). set_solver. }
  destruct (live_fields h first) as (bf & ? & Hbf & _).
  { apply nx_is_Some, (cycle_live _ _ _ Hc). set_solver. }
  destruct (live_fields h le) as (last & ? & Hlast & _).
  { apply nx_is_Some, (cycle_live _ _ _ Hc). set_solver. }
  assert (wp (splice pos first le) h (λ _ h', spliced h bp first last pos bf le h'))
    as ([] & h' & Hrun & Hs).
  { apply (wp_splice pos first le last bp bf); auto. }
  exists h'. split; [done|]. split.
  - by apply (WF_spliced h bp first last pos bf le).
  - by apply (cycle_spliced_same h h' pos l1 first mid le l2 bp bf last).
Qed.

(** X14.  [splice] inside one list, towards the back: a run
    [first :: mid] of members that ends just before the member
    [last_exclusive] is moved to sit immediately before a position [pos]
    that lies after [last_exclusive] (a later member, or [end()]); the
    other members keep their order. *)
Theorem splice_within_list_to_back
    (h : heap) (d : addr) (A : list addr) (first : addr) (mid : list addr)
    (le : addr) (B C : list addr) :
  WF h →
  is_list h d (A ++ first :: mid ++ le :: B ++ C) →
  ∃ h', splice (hd d C) first le h = Some ((), h') ∧
        WF h' ∧
        is_list h' d (A ++ le :: B ++ first :: mid ++ C).
Proof.
  unfold is_list. intros HWF Hl. destruct C as [|c C]; simpl hd.
  - rewrite !app_nil_r in *.
    by apply (splice_same_ring h d A first mid le B).
  - destruct (splice_same_ring h c (C ++ d :: A) first mid le B)
      as (h' & Hrun & HWF' & Hc); [done| |].
    { replace (c :: (C ++ d :: A) ++ first :: mid ++ le :: B)
        with ((c :: C) ++ d :: A ++ first :: mid ++ le :: B) by reassoc.
      apply cycle_rotate.
      replace ((d :: A ++ first :: mid ++ le :: B) ++ c :: C)
        with (d :: A ++ first :: mid ++ le :: B ++ c :: C) by reassoc.
      done. }
    exists h'. split; [done|]. split; [done|].
    replace (d :: A ++ le :: B ++ first :: mid ++ c :: C)
      with ((d :: A ++ le :: B ++ first :: mid) ++ c :: C) by reassoc.
    apply cycle_rotate.
    replace ((c :: C) ++ d :: A ++ le :: B ++ first :: mid)
      with (c :: (C ++ d :: A) ++ le :: B ++ first :: mid) by reassoc.
    done.
Qed.
(** X15.  [splice] inside one list, towards the front: a run
    [first :: mid] of members is moved to sit immediately before a member
    [pos] that lies before it; [last_exclusive] is the member after the
    run, or [end()].  The other members keep their order. *)
Theorem splice_within_list_to_front
    (h : heap) (d : addr) (A : list addr) (pos : addr) (C : list addr)
    (first : addr) (mid D : list addr) :
  WF h →
  is_list h d (A ++ pos :: C ++ first :: mid ++ D) →
  ∃ h', splice pos first (hd d D) h = Some ((), h') ∧
        WF h' ∧
        is_list h' d (A ++ first :: mid ++ pos :: C ++ D).
Proof.
  unfold is_list. intros HWF Hl. destruct D as [|e D]; simpl hd.
  - rewrite !app_nil_r in *.
    destruct (splice_same_ring h pos C first mid d A)
      as (h' & Hrun & HWF' & Hc); [done| |].
    { replace (pos :: C ++ first :: mid ++ d :: A)
        with ((pos :: C ++ first :: mid) ++ d :: A) by reassoc.
      apply cycle_rotate.
      replace ((d :: A) ++ pos :: C ++ first :: mid)
        with (d :: A ++ pos :: C ++ first :: mid) by reassoc.
      done. }
    exists h'. split; [done|]. split; [done|].
    replace (d :: A ++ first :: mid ++ pos :: C)
      with ((d :: A ++ first :: mid) ++ pos :: C) by reassoc.
    apply cycle_rotate.
    replace ((pos :: C) ++ d :: A ++ first :: mid)
      with (pos :: C ++ d :: A ++ first :: mid) by reassoc.
    done.
  - destruct (splice_same_ring h pos C first mid e (D ++ d :: A))
      as (h' & Hrun & HWF' & Hc); [done| |].
    { replace (pos :: C ++ first :: mid ++ e :: D ++ d :: A)
        with ((pos :: C ++ first :: mid ++ e :: D) ++ d :: A) by reassoc.
      apply cycle_rotate.
      replace ((d :: A) ++ pos :: C ++ first :: mid ++ e :: D)
        with (d :: A ++ pos :: C ++ first :: mid ++ e :: D) by reassoc.
      done. }
    exists h'. split; [done|]. split; [done|].
    replace (d :: A ++ first :: mid ++ pos :: C ++ e :: D)
      with ((d :: A ++ first :: mid) ++ pos :: C ++ e :: D) by reassoc.
    apply cycle_rotate.
    replace ((pos :: C ++ e :: D) ++ d :: A ++ first :: mid)
      with (pos :: C ++ e :: (D ++ d :: A) ++ first :: mid) by reassoc.
    done.
Qed.
End splice_lists.

(** X13.  [splice] of a range of another list: with [pos] a position of
    the list [d] and [first :: mid] a run of members of a different list
    [d1] that ends just before [last_exclusive], the run is moved, in
    order and at the same nodes, to sit immediately before [pos], and
    [d1] keeps its other members in order; no member is lost or
    duplicated.  With an empty range nothing is written. *)
Theorem splice_moves_range_between_lists
    (h : heap) (d : addr) (ys zs : list addr)
    (d1 : addr) (xs1 : list addr) (first : addr) (mid xs2 : list addr) :
  WF h →
  is_list h d (ys ++ zs) →
  is_list h d1 (xs1 ++ first :: mid ++ xs2) →
  d1 ∉ d :: ys ++ zs →
  splice (hd d zs) first first h = Some ((), h) ∧
  ∃ h', splice (hd d zs) first (hd d1 xs2) h = Some ((), h') ∧
        WF h' ∧
        is_list h' d (ys ++ first :: mid ++ zs) ∧
        is_list h' d1 (xs1 ++ xs2) ∧
        (∀ fuel, length ys + length zs + S (length mid) ≤ fuel →
           to_list fuel d h' = Some (ys ++ first :: mid ++ zs, h') ∧
           size fuel d h' = Some (length ys + length zs + S (length mid), h')) ∧
        (∀ fuel, length xs1 + length xs2 ≤ fuel →
           to_list fuel d1 h' = Some (xs1 ++ xs2, h')).
Proof.
  intros HWF Hl Hl1 Hd1. split.
  { unfold splice. by rewrite decide_True. }
  destruct (splice_between_lists h d ys zs d1 xs1 first mid xs2)
    as (h' & Hrun & HWF' & Hl' & Hl1'); [done..|].
  exists h'. split; [done|]. split; [done|]. split; [done|]. split; [done|].
  assert (length (ys ++ first :: mid ++ zs)
          = length ys + length zs + S (length mid)) as Hlen.
  { rewrite !length_app. simpl. rewrite length_app. lia. }
  split.
  - intros fuel Hfuel. split.
    + apply is_list_to_list; [done|lia].
    + rewrite <-Hlen. apply is_list_size; [done|lia].
  - intros fuel Hfuel. apply is_list_to_list; [done|]. rewrite length_app. lia.
Qed.

Lemma splice_moves_range_between_lists_witness :
  WF heap_two_lists ∧
  is_list heap_two_lists 5 [6]%positive ∧
  is_list heap_two_lists 1 [2; 3; 4]%positive ∧
  ∃ h', splice 6%positive 3%positive 1%positive heap_two_lists = Some ((), h') ∧
        is_list h' 5 [3; 4; 6]%positive ∧
        is_list h' 1 [2]%positive.
Proof.
  assert (WF heap_two_lists) as HWF by (apply WF_map_Forall; compute_done).
  assert (is_list heap_two_lists 5 [6]%positive) as H5.
  { split; [compute_done|]. vm_compute. by repeat split. }
  assert (is_list heap_two_lists 1 [2; 3; 4]%positive) as H1.
  { split; [compute_done|]. vm_compute. by repeat split. }
  split; [exact HWF|]. split; [exact H5|]. split; [exact H1|].
  destruct (splice_moves_range_between_lists heap_two_lists 5 [] [6%positive]
              1 [2%positive] 3 [4%positive] [] HWF H5 H1)
    as (_ & h' & Hrun & _ & H5' & H1' & _); [compute_done|].
  exists h'. split; [exact Hrun|]. split; [exact H5'|exact H1'].
Defined.

Lemma splice_within_list_to_back_witness :
  WF heap_five ∧ is_list heap_five 1 [2; 3; 4; 5; 6]%positive ∧
  ∃ h', splice 1%positive 2%positive 4%positive heap_five = Some ((), h') ∧
        is_list h' 1 [4; 5; 6; 2; 3]%positive.
Proof.
  assert (WF heap_five) as HWF by (apply WF_map_Forall; compute_done).
  assert (is_list heap_five 1 [2; 3; 4; 5; 6]%positive) as Hl.
  { split; [compute_done|]. vm_compute. by repeat split. }
  split; [exact HWF|]. split; [exact Hl|].
  destruct (splice_within_list_to_back heap_five 1 [] 2 [3%positive] 4
              [5%positive; 6%positive] [] HWF Hl) as (h' & Hrun & _ & Hl').
  exists h'. split; [exact Hrun|exact Hl'].
Defined.

Lemma splice_within_list_to_front_witness :
  WF heap_five ∧ is_list heap_five 1 [2; 3; 4; 5; 6]%positive ∧
  ∃ h', splice 3%positive 5%positive 1%positive heap_five = Some ((), h') ∧
        is_list h' 1 [2; 5; 6; 3; 4]%positive.
Proof.
  assert (WF heap_five) as HWF by (apply WF_map_Forall; compute_done).
  assert (is_list heap_five 1 [2; 3; 4; 5; 6]%positive) as Hl.
  { split; [compute_done|]. vm_compute. by repeat split. }
  split; [exact HWF|]. split; [exact Hl|].
  destruct (splice_within_list_to_front heap_five 1 [2%positive] 3 [4%positive] 5
              [6%positive] [] HWF Hl) as (h' & Hrun & _ & Hl').
  exists h'. split; [exact Hrun|exact Hl'].
Defined.

(** ** Iterating backwards, filling and emptying a list *)

Section loops.
Implicit Types (h : heap) (a b c x d : addr) (l xs : list addr).

Lemma hd_snoc b l x : hd b (l ++ [x]) = hd x l.
Proof. by destruct l. Qed.

Lemma hd_snoc_elem b l x : hd b (l ++ [x]) ∈ l ++ [x].
Proof. destruct l; simpl; set_solver. Qed.

Lemma traverse_back_chain h a l b fuel :
  chain h a l b → NoDup l → b ∉ l → length l ≤ fuel →
  traverse_back fuel b (hd b l) h = Some (reverse l, h).
Proof.
  revert b fuel. induction l as [|x l IH] using rev_ind; intros b fuel Hc Hnd Hb Hlen.
  - simpl. destruct fuel; simpl; by rewrite decide_True.
  - rewrite length_app in Hlen. simpl in Hlen.
    destruct fuel as [|fuel]; [lia|]. simpl.
    rewrite decide_False; [|intros Heq; apply Hb; rewrite Heq; apply hd_snoc_elem].
    pose proof (chain_last _ _ _ _ Hc) as Hp. rewrite last_of_snoc in Hp.
    apply pv_Some in Hp as [n Hbx].
    apply chain_snoc in Hc as [Hc _].
    apply NoDup_app in Hnd as (Hnd & Hdisj & _).
    unfold mbind, M_bind, iter_decr, get_prev. rewrite Hbx. simpl.
    rewrite hd_snoc, (IH x fuel); [|done..| |lia].
    + by rewrite reverse_snoc.
    + intros Hin. apply (Hdisj x Hin). set_solver.
Qed.


End loops.

(** X16.  The two directions of iteration agree: walking from [end()]
    with [operator--] until [begin()] visits exactly the members of the
    list, in the reverse of the order in which [operator++] visits them
    from [begin()] to [end()]. *)
Theorem backward_iteration_reverses (h : heap) (d : addr) (xs : list addr) (fuel : nat) :
  is_list h d xs → length xs ≤ fuel →
  to_list fuel d h = Some (xs, h) ∧
  to_list_back fuel d h = Some (reverse xs, h).
Proof.
  intros Hl Hfuel. split; [by apply is_list_to_list|].
  pose proof Hl as [[Hd Hnd]%NoDup_cons Hc].
  unfold to_list_back, mbind, M_bind. rewrite (is_list_begin h d xs Hl).
  unfold end_, mret, M_ret. by eapply traverse_back_chain.
Qed.

Lemma backward_iteration_reverses_witness :
  is_list heap_abc 1 [2; 3; 4]%positive ∧
  to_list 3 1%positive heap_abc = Some ([2; 3; 4]%positive, heap_abc) ∧
  to_list_back 3 1%positive heap_abc = Some ([4; 3; 2]%positive, heap_abc).
Proof.
  assert (is_list heap_abc 1 [2; 3; 4]%positive) as Hl.
  { split; [compute_done|]. vm_compute. by repeat split. }
  split; [exact Hl|].
  apply (backward_iteration_reverses heap_abc 1 [2; 3; 4]%positive 3 Hl).
  simpl. lia.
Defined.



(** X18.  Erasing the members one by one, each time continuing at the
    iterator [erase] returned, empties the list and, unlike [clear()],
    leaves every former member self-looped.  Nodes outside the list are
    untouched. *)
Theorem erase_all_unlinks_members (h : heap) (d : addr) (xs : list addr) (fuel : nat) :
  is_list h d xs → length xs ≤ fuel →
  ∃ h', erase_all fuel (hd d xs) d h = Some ((), h') ∧
        is_list h' d [] ∧
        (∀ x, x ∈ xs → self_looped h' x ∧ is_linked x h' = Some (false, h')) ∧
        (∀ c, c ∉ d :: xs → h' !! c = h !! c) ∧
        (WF h → WF h').
Proof.
  revert h fuel. induction xs as [|x xs IH]; intros h fuel Hl Hfuel.
  - exists h. split.
    { destruct fuel; simpl; by rewrite decide_True. }
    split; [done|]. split; [|done]. intros x Hx. by apply elem_of_nil in Hx.
  - simpl in Hfuel. destruct fuel as [|fuel]; [lia|].
    pose proof (cycle_NoDup _ _ Hl) as Hnd.
    assert (x ≠ d ∧ x ∉ xs) as [Hxd Hxs] by (nodup_inv; set_solver).
    destruct (erase_list_member h d [] x xs Hl)
      as (h1 & Hrun1 & Hl1 & Hs1 & Hfr1 & HWF1).
    destruct (IH h1 fuel Hl1) as (h' & Hrun & Hl' & Hself & Hfr & HWF'); [lia|].
    exists h'. split.
    { simpl. rewrite decide_False by done.
      unfold mbind, M_bind. by rewrite Hrun1. }
    split; [done|]. split; [|split].
    + intros y Hy. apply elem_of_cons in Hy as [Heq|Hy]; [subst y|by apply Hself].
      assert (self_looped h' x) as Hx.
      { unfold self_looped. rewrite Hfr by set_solver. done. }
      split; [done|]. by apply self_looped_is_linked.
    + intros c Hc. rewrite Hfr by set_solver. apply Hfr1. set_solver.
    + auto.
Qed.

Lemma erase_all_unlinks_members_witness :
  is_list heap_abc 1 [2; 3; 4]%positive ∧
  ∃ h', erase_all 3 2%positive 1%positive heap_abc = Some ((), h') ∧
        is_list h' 1 [] ∧
        self_looped h' 2 ∧ self_looped h' 3 ∧ self_looped h' 4.
Proof.
  assert (is_list heap_abc 1 [2; 3; 4]%positive) as Hl.
  { split; [compute_done|]. vm_compute. by repeat split. }
  split; [exact Hl|].
  destruct (erase_all_unlinks_members heap_abc 1 [2; 3; 4]%positive 3 Hl)
    as (h' & Hrun & Hl' & Hself & _); [simpl; lia|].
  exists h'. split; [exact Hrun|]. split; [exact Hl'|].
  split; [apply Hself; compute_done|].
  split; apply Hself; compute_done.
Defined.

(** ** What [is_linked] and iteration can and cannot tell *)

(** X19.  [is_linked()] tells whether the node has a neighbour, not
    whether it is in a list: on a ring of [n] nodes it answers true for
    each of them iff [n > 1], and on a heap that satisfies the invariant it
    answers false exactly for the self-looped nodes. *)
Theorem is_linked_counts_ring (h : heap) (x : addr) :
  (∀ l, cycle h l → x ∈ l →
     is_linked x h = Some (bool_decide (1 < length l), h)) ∧
  (WF h → is_Some (h !! x) →
     ∃ b, is_linked x h = Some (b, h) ∧ (b = false ↔ self_looped h x)).
Proof.
  split; [intros l Hc Hx; by apply cycle_is_linked|].
  intros HWF (p & n & Hp & Hn)%live_fields.
  exists (bool_decide (p ≠ x)). split.
  - apply pv_Some in Hp as [? Hx].
    unfold is_linked, get_prev, mbind, M_bind, mret, M_ret. by rewrite Hx.
  - rewrite bool_decide_eq_false. split.
    + intros Heq. apply WF_self_looped; [done|].
      destruct (decide (p = x)) as [->|]; [done|]. by destruct Heq.
    + intros [Hp' _]%self_looped_fields. intros Hne. congruence.
Qed.

(** X20.  A ring that does not contain the sentinel cannot be iterated up
    to [end()]: starting from any node of such a ring, neither iteration
    nor [std::distance] towards a node outside the ring comes to an end,
    whatever the number of steps allowed.  This is the state in which
    [clear()] leaves the former members of a list. *)
Theorem iteration_off_list_never_ends (h : heap) (l : list addr) (d x : addr) :
  cycle h l → d ∉ l → x ∈ l →
  ∀ fuel, traverse fuel x d h = None ∧ distance fuel x d h = None.
Proof.
  intros Hc Hd Hx fuel. revert x Hx.
  induction fuel as [|fuel IH]; intros x Hx.
  - simpl. rewrite !decide_False by (intros ->; done). done.
  - simpl. rewrite !decide_False by (intros ->; done).
    destruct (cycle_live _ _ _ Hc Hx) as [y Hy].
    pose proof (cycle_nx_elem _ _ _ _ Hc Hx Hy) as Hyl.
    apply nx_Some in Hy as [p Hy].
    unfold mbind, M_bind, get_next. rewrite Hy. simpl.
    destruct (IH y Hyl) as [-> ->]. done.
Qed.

Lemma iteration_off_list_never_ends_witness :
  WF heap_ab ∧ is_list heap_ab 1 [2; 3]%positive ∧
  ∃ h', clear 1%positive heap_ab = Some ((), h') ∧
        cycle h' [2; 3]%positive ∧
        ∀ fuel, traverse fuel 2%positive 1%positive h' = None ∧
                distance fuel 2%positive 1%positive h' = None.
Proof.
  assert (WF heap_ab) as HWF by (apply WF_map_Forall; compute_done).
  assert (is_list heap_ab 1 [2; 3]%positive) as Hl.
  { split; [compute_done|]. vm_compute. by repeat split. }
  split; [exact HWF|]. split; [exact Hl|].
  destruct (clear_rings heap_ab 1 [2; 3]%positive HWF Hl)
    as (h' & Hrun & _ & _ & Hring & _); [done|].
  exists h'. split; [exact Hrun|]. split; [exact Hring|].
  apply (iteration_off_list_never_ends h' [2; 3]%positive 1 2 Hring);
    compute_done.
Defined.
